(** * keepdataflow.archive.database_operations

    A shallow embedding of [DatabaseOperations] (staging-table DDL
    rendering, partitioned insert, truncate, merge orchestration and
    source extraction) together with the properties stated about it.

    Conventions.
    - A Python [str] is a [string]: the sequence of its code points, each
      below 256.  Among these code points the regular-expression class
      [\d] matches exactly the characters 0..9.
    - [Optional[T]] is [option T]; a value whose Python type is not fixed
      by the call site ([full_refresh]) is a [pyval].
    - Calls into collaborators that live outside this module (the
      DatabaseEngine context manager, SQLAlchemy sessions and inspector,
      the keepitsql generators, polars, the file system) are fields of
      [Collab]; every call with an effect is recorded in a trace. *)

From Stdlib Require Import String Ascii List Bool Arith ZArith Lia Permutation.
Import ListNotations.

Local Open Scope string_scope.
Local Open Scope list_scope.

Infix "+:+" := String.append (at level 60, right associativity).

(* ================================================================= *)
(** ** Python strings *)

Module Str.

(** [s.startswith(p)] *)
Fixpoint startswith (p s : string) : bool :=
  match p, s with
  | EmptyString, _ => true
  | String a p', String b s' => Ascii.eqb a b && startswith p' s'
  | String _ _, EmptyString => false
  end.

(** What follows the prefix [p] in [s], when [s] starts with [p]. *)
Fixpoint after_prefix (p s : string) : option string :=
  match p, s with
  | EmptyString, _ => Some s
  | String a p', String b s' => if Ascii.eqb a b then after_prefix p' s' else None
  | String _ _, EmptyString => None
  end.

(** [s.endswith(p)] *)
Definition endswith (p s : string) : bool :=
  (String.length p <=? String.length s)%nat
  && String.eqb (substring (String.length s - String.length p) (String.length p) s) p.

(** Truth value of a [str]: only the empty string is falsy. *)
Definition truthy (s : string) : bool :=
  match s with EmptyString => false | String _ _ => true end.

(** Truth value of an [Optional[str]]: [None] and the empty string are falsy. *)
Definition truthy_opt (o : option string) : bool :=
  match o with None => false | Some s => truthy s end.

(** Left-to-right scan behind [s.replace(old, new)] for a non-empty [old]:
    [skip] counts the characters of the occurrence found last that are
    still to be passed over, so that occurrences never overlap. *)
Fixpoint replace_scan (old new : string) (skip : nat) (s : string) : string :=
  match s with
  | EmptyString => EmptyString
  | String c rest =>
      match skip with
      | S k => replace_scan old new k rest
      | O =>
          if startswith old s
          then new +:+ replace_scan old new (String.length old - 1) rest
          else String c (replace_scan old new 0 rest)
      end
  end.

(** Python's [s.replace("", new)] puts [new] before every character and at the end. *)
Fixpoint intersperse_all (new s : string) : string :=
  match s with
  | EmptyString => new
  | String c rest => new +:+ String c (intersperse_all new rest)
  end.

(** [s.replace(old, new)] *)
Definition replace (old new s : string) : string :=
  match old with
  | EmptyString => intersperse_all new s
  | String _ _ => replace_scan old new 0 s
  end.

(** [sub in s] *)
Fixpoint contains (sub s : string) : bool :=
  startswith sub s ||
  match s with
  | EmptyString => false
  | String _ rest => contains sub rest
  end.

End Str.

(* ================================================================= *)
(** ** The regular expression [IDENTITY(\(\d+,\d+\))?] *)

Module Re.

Definition is_digit (c : ascii) : bool :=
  let n := nat_of_ascii c in (48 <=? n)%nat && (n <=? 57)%nat.

(** A string made of digits only. *)
Fixpoint all_digits (s : string) : bool :=
  match s with
  | EmptyString => true
  | String c rest => is_digit c && all_digits rest
  end.

(** [\d*] at the head of [s]: how many digits, and what follows them. *)
Fixpoint span_digits (s : string) : nat * string :=
  match s with
  | String c rest =>
      if is_digit c
      then let '(n, r) := span_digits rest in (S n, r)
      else (O, s)
  | EmptyString => (O, EmptyString)
  end.

(** The group [\(\d+,\d+\)] at the head of [s]: the length it matches.
    Each [\d+] is greedy; giving digits back can never help, because the
    character wanted next (a comma, a closing parenthesis) is not a digit. *)
Definition match_seed_increment (s : string) : option nat :=
  match s with
  | String "(" r1 =>
      let '(n1, r2) := span_digits r1 in
      match n1, r2 with
      | S _, String "," r3 =>
          let '(n2, r4) := span_digits r3 in
          match n2, r4 with
          | S _, String ")" _ => Some (1 + n1 + 1 + n2 + 1)%nat
          | _, _ => None
          end
      | _, _ => None
      end
  | _ => None
  end.

(** The whole pattern at the head of [s]: the literal, then the optional
    group (taken when it matches, the [?] being greedy). *)
Definition match_identity (s : string) : option nat :=
  match Str.after_prefix "IDENTITY" s with
  | Some rest =>
      match match_seed_increment rest with
      | Some k => Some (8 + k)%nat
      | None => Some 8%nat
      end
  | None => None
  end.

(** [re.sub(pattern, '', s)]: every match found scanning from the left is
    deleted and the scan resumes after it; other characters are copied. *)
Fixpoint sub_scan (skip : nat) (s : string) : string :=
  match s with
  | EmptyString => EmptyString
  | String c rest =>
      match skip with
      | S k => sub_scan k rest
      | O =>
          match match_identity s with
          | Some n => sub_scan (n - 1) rest
          | None => String c (sub_scan 0 rest)
          end
      end
  end.

Definition sub_identity (s : string) : string := sub_scan 0 s.

(** No match of the pattern starts at a character of [pre] when [pre] is
    followed by [suffix]. *)
Fixpoint no_match_within (pre suffix : string) : bool :=
  match pre with
  | EmptyString => true
  | String c p =>
      match match_identity (String c p +:+ suffix) with
      | None => no_match_within p suffix
      | Some _ => false
      end
  end.

End Re.

(* ================================================================= *)
(** ** Identifier formatter *)

(** [table_name_formattter(table_name, schema_name)] *)
Definition table_name_formattter (table_name : string) (schema_name : option string) : string :=
  match schema_name with
  | Some s => if Str.truthy s then s +:+ "." +:+ table_name else table_name
  | None => table_name
  end.

(** How an f-string renders an [Optional[str]]. *)
Definition fstr_opt (o : option string) : string :=
  match o with Some s => s | None => "None" end.

(** The same function at the call in [copy_source_db], where the table
    name is an [Optional[str]] and the result may therefore be [None]. *)
Definition table_name_formattter_untyped (table_name schema_name : option string) : option string :=
  match schema_name with
  | Some s => if Str.truthy s then Some (s +:+ "." +:+ fstr_opt table_name) else table_name
  | None => table_name
  end.

(* ================================================================= *)
(** ** Values, exceptions and the trace of collaborator calls *)

(** A Python value where the call site does not fix its type. *)
Inductive pyval :=
| VNone
| VBool (b : bool)
| VInt (z : Z)
| VStr (s : string).

(** [v == s] for a string literal [s]: a value of another type never
    equals a [str]. *)
Definition py_eq_str (v : pyval) (s : string) : bool :=
  match v with
  | VStr t => String.eqb t s
  | _ => false
  end.

(** A polars DataFrame: column names and rows of values. *)
Record DataFrame := { columns : list string; data : list (list pyval) }.

(** One row as an ordered name -> value mapping. *)
Definition row := list (string * pyval).

(** [[dict(row) for row in df.iter_rows(named=True)]] *)
Definition iter_rows_named (df : DataFrame) : list row :=
  map (fun r => combine df.(columns) r) df.(data).

(** [Union[str, bytes]] *)
Inductive str_or_bytes :=
| SqlStr (s : string)
| SqlBytes (b : string).

(** [Union[str, List[str]]] *)
Inductive str_or_list :=
| AStr (s : string)
| AList (l : list string).

Inductive exn :=
| ValueError (msg : string)
| TypeError (msg : string)
| IndexError (msg : string)
| OtherError (class_name msg : string).

(** [str(e)] *)
Definition exn_str (e : exn) : string :=
  match e with
  | ValueError m | TypeError m | IndexError m | OtherError _ m => m
  end.

Inductive result (A : Type) :=
| Return (a : A)
| Raise (e : exn).
Arguments Return {A} a.
Arguments Raise {A} e.

(** A session object, by identity. *)
Definition session := nat.

(** [sqlalchemy.Column(name, type, primary_key=...)] *)
Record Column := { c_name : string; c_type : string; c_primary_key : bool }.

(** [sqlalchemy.Table(name, metadata, *columns, schema=...)] *)
Record Table := { t_name : string; t_columns : list Column; t_schema : option string }.

(** The arguments of [FromDataframe(dataframe).dbms_merge_generator(...)]. *)
Record MergeArgs := {
  m_dataframe : option DataFrame;
  m_table_name : string;
  m_match_condition : list string;
  m_dbms : string;
  m_constraint_columns : list string;
  m_source_table_name : string
}.

(** Calls that leave this module. *)
Inductive event :=
| EngineEnter (s : session)                       (* DatabaseEngine.__enter__ *)
| EngineExit (s : session)                        (* DatabaseEngine.__exit__ *)
| SessionEnter (s : session)                      (* Session.__enter__ *)
| SessionExit (s : session)                       (* Session.__exit__ *)
| GetColumns (s : session) (table : string) (schema : option string)
| GetPkConstraint (s : session) (table : string) (schema : option string)
| CompileCreateTable (s : session) (t : Table)
| Execute (s : session) (sql : string) (params : option (list row))
| Commit (s : session)
| Print (line : string)
| InsertGen (part : DataFrame) (table_name : string) (source_table : option string)
| MergeGen (a : MergeArgs)
| GetTableColumnInfo (s : session) (table : string) (schema : option string)
| PartitionDataframe (df : option DataFrame) (chunk_size : Z) (column_name : option str_or_list)
| GetDbmsDialect
| RandomChoices
| CreateEngine (url : string)
| IsFile (path : str_or_bytes)
| ReadFile (path : string)
| ReadDatabaseUri (query : str_or_bytes) (uri : string) (partition_range : option Z).

(** A call either went through or raised. *)
Inductive entry :=
| Done (ev : event)
| Failed (ev : event) (e : exn).

Definition trace := list entry.

(** The collaborators.  What a call answers, and whether it raises, may
    depend on everything that happened before. *)
Record Collab := {
  raises : trace -> event -> option exn;
  fresh_session : trace -> session;
  dialect_name : session -> string;                       (* session.bind.dialect.name *)
  columns_info : trace -> session -> string -> option string -> list (string * string);
  pk_constrained_columns : trace -> session -> string -> option string -> list string;
  compiled_ddl : trace -> session -> Table -> string;
  table_column_info : trace -> session -> string -> option string -> list string * list string;
  partitions : trace -> option DataFrame -> Z -> option str_or_list -> list DataFrame;
  insert_statement : trace -> DataFrame -> string -> option string -> string;
  merge_statement : trace -> MergeArgs -> string;
  dbms_dialect : trace -> string;
  random_suffix : trace -> string;
  engine_url : trace -> string -> string;
  isfile : trace -> str_or_bytes -> bool;
  file_contents : trace -> string -> string;
  database_rows : trace -> str_or_bytes -> string -> option Z -> DataFrame;
  pick : trace -> nat -> nat       (* which of the running workers makes the next call *)
}.

(* ================================================================= *)
(** ** Computations: a trace threaded through, exceptions as results *)

Definition M (A : Type) : Type := trace -> result A * trace.

Definition ret {A} (a : A) : M A := fun tr => (Return a, tr).

Definition raise {A} (e : exn) : M A := fun tr => (Raise e, tr).

Definition bind {A B} (m : M A) (k : A -> M B) : M B :=
  fun tr =>
    match m tr with
    | (Return a, tr1) => k a tr1
    | (Raise e, tr1) => (Raise e, tr1)
    end.

Notation "x <- m ;; k" := (bind m (fun x => k))
  (at level 61, m at next level, right associativity).
Notation "m ;;; k" := (bind m (fun _ => k))
  (at level 61, right associativity).

(** [try: body / except Exception as e: handler e] *)
Definition try_except {A} (body : M A) (handler : exn -> M A) : M A :=
  fun tr =>
    match body tr with
    | (Return a, tr1) => (Return a, tr1)
    | (Raise e, tr1) => handler e tr1
    end.

(** [with cm as x: body x].  When entering raises, nothing else runs.
    Otherwise the exit runs whatever the body did; the context managers
    used here do not swallow the body's exception, and an exception of
    the exit itself replaces it. *)
Definition with_cm {A B} (enter : M A) (exit : A -> M unit) (body : A -> M B) : M B :=
  fun tr =>
    match enter tr with
    | (Raise e, tr1) => (Raise e, tr1)
    | (Return a, tr1) =>
        let '(r, tr2) := body a tr1 in
        match exit a tr2 with
        | (Raise e', tr3) => (Raise e', tr3)
        | (Return _, tr3) => (r, tr3)
        end
    end.

(** [print(line)] *)
Definition print (line : string) : M unit :=
  fun tr => (Return tt, tr ++ [Done (Print line)]).

(* ================================================================= *)
(** ** Workers of a thread pool, call by call *)

(** The workers of a [ThreadPoolExecutor] run at the same time: between
    two calls of one worker the others may make theirs.  So the code a
    worker runs is kept as what it still has to do: nothing ([Over],
    with its result), or one call to a collaborator and then whatever
    its outcome asks for ([Ask]; the event and the answer may depend on
    the history at the moment of the call), or one line to print and
    then the rest ([Say]). *)
Inductive task (A : Type) : Type :=
| Over (r : result A)
| Ask {X : Type} (ev : trace -> event) (answer : trace -> X) (k : result X -> task A)
| Say (line : string) (k : task A).

Arguments Over {A} r.
Arguments Ask {A X} ev answer k.
Arguments Say {A} line k.

(** One call and its outcome; one printed line. *)
Definition ask {X} (ev : event) (answer : trace -> X) : task X :=
  Ask (fun _ => ev) answer (fun r => Over r).

Definition say (line : string) : task unit :=
  Say line (Over (Return tt)).

(** [x = t; k x] *)
Fixpoint then_task {A B} (t : task A) (k : A -> task B) : task B :=
  match t with
  | Over (Return a) => k a
  | Over (Raise e) => Over (Raise e)
  | Ask ev answer k' => Ask ev answer (fun r => then_task (k' r) k)
  | Say line k' => Say line (then_task k' k)
  end.

(** [try: t / except Exception as e: handler e] *)
Fixpoint try_task {A} (t : task A) (handler : exn -> task A) : task A :=
  match t with
  | Over (Return a) => Over (Return a)
  | Over (Raise e) => handler e
  | Ask ev answer k' => Ask ev answer (fun r => try_task (k' r) handler)
  | Say line k' => Say line (try_task k' handler)
  end.

(** The body of a [with] block followed by the exit of its context
    manager: the exit runs whatever the body did, and an exception of the
    exit replaces the body's. *)
Fixpoint leave_task {A} (t : task A) (exit : event) : task A :=
  match t with
  | Over r =>
      Ask (fun _ => exit) (fun _ => tt)
          (fun rx => match rx with
                     | Raise e' => Over (Raise e')
                     | Return _ => Over r
                     end)
  | Ask ev answer k' => Ask ev answer (fun r => leave_task (k' r) exit)
  | Say line k' => Say line (leave_task k' exit)
  end.

(** [with cm as x: body x], as in [with_cm]. *)
Definition with_task {X B} (enter : trace -> event) (entered : trace -> X)
    (exit : X -> event) (body : X -> task B) : task B :=
  Ask enter entered
      (fun r => match r with
                | Raise e => Over (Raise e)
                | Return x => leave_task (body x) (exit x)
                end).

(** Whether a worker still has a call to make. *)
Definition is_live {A} (t : task A) : bool :=
  match t with
  | Over _ => false
  | _ => true
  end.

Definition live_count {A} (ts : list (task A)) : nat :=
  List.length (filter is_live ts).

(* ================================================================= *)
(** ** DatabaseOperations *)

(** [create_temp_table_headers], in the order of the literal. *)
Definition create_temp_table_headers : list (string * string) :=
  [ ("oracle", "CREATE GLOBAL TEMPORARY TABLE");
    ("mssql", "CREATE TABLE ##");
    ("db2", "");
    ("postgresql", "CREATE TEMP TABLE ");
    ("mysql", "CREATE TEMPORARY TABLE ");
    ("sqlite", "CREATE TEMP TABLE ");
    ("teradata", "");
    ("hana", "");
    ("snowflake", "");
    ("redshift", "CREATE TEMP TABLE ");
    ("bigquery", "") ].

(** [d.get(key)] on a dict literal with distinct keys. *)
Fixpoint dict_get (d : list (string * string)) (key : string) : option string :=
  match d with
  | [] => None
  | (k, v) :: d' => if String.eqb k key then Some v else dict_get d' key
  end.

Definition double_quote : string := String "034"%char EmptyString.

(** The textual rewrite at the end of [create_temp_table]: quotes are
    stripped from the compiled DDL, the standard header is replaced by
    [temp_table_header], brackets are stripped, identity clauses removed.
    [str.replace] refuses [None] as its second argument. *)
Definition temp_ddl (temp_table_header : option string) (compiled : string) : result string :=
  let ddl := Str.replace double_quote "" compiled in
  match temp_table_header with
  | None => Raise (TypeError "replace() argument 2 must be str, not None")
  | Some header =>
      let temp_ddl :=
        Str.replace "[" "" (Str.replace "]" "" (Str.replace "CREATE TABLE " header ddl)) in
      Return (Re.sub_identity temp_ddl)
  end.

(** The object state: [self.dataframe] ([self.database_engine] is among
    the collaborators). *)
Record DatabaseOperations := { dataframe : option DataFrame }.

Section Operations.

Variable env : Collab.

(** One call to a collaborator: recorded, and answered unless it raises. *)
Definition call {A} (ev : event) (answer : trace -> A) : M A :=
  fun tr =>
    match raises env tr ev with
    | Some e => (Raise e, tr ++ [Failed ev e])
    | None => (Return (answer tr), tr ++ [Done ev])
    end.

(** Modelled from the spec: [DatabaseEngine] ([keepdataflow._database_engine])
    is not part of this module.  The spec describes its session as a
    scoped unit of work, acquired on entry and released on exit; which
    session entering yields, and whether entering or leaving raises, are
    answers of the collaborators. *)
Definition engine_enter : M session :=
  fun tr => call (EngineEnter (fresh_session env tr)) (fun _ => fresh_session env tr) tr.

(** [with self.database_engine as session: body] *)
Definition with_database_engine {B} (body : session -> M B) : M B :=
  with_cm engine_enter (fun s => call (EngineExit s) (fun _ => tt)) body.

(** [with session: body] *)
Definition with_session {B} (s : session) (body : M B) : M B :=
  with_cm (call (SessionEnter s) (fun _ => s))
          (fun _ => call (SessionExit s) (fun _ => tt))
          (fun _ => body).

Definition generate_temp_table_name (table_name : string) : M string :=
  uid <- call RandomChoices (random_suffix env) ;;
  ret ("_source_" +:+ table_name +:+ "_" +:+ uid).

Definition create_temp_table (s : session) (table_name : string)
    (source_schema new_table_name target_schema : option string) : M string :=
  with_session s
    (columns_info <- call (GetColumns s table_name source_schema)
                          (fun tr => columns_info env tr s table_name source_schema) ;;
     pk_info <- call (GetPkConstraint s table_name source_schema)
                     (fun tr => pk_constrained_columns env tr s table_name source_schema) ;;
     let columns :=
       map (fun col => {| c_name := fst col; c_type := snd col;
                          c_primary_key := existsb (String.eqb (fst col)) pk_info |})
           columns_info in
     let final_table_name :=
       match new_table_name with
       | Some n => if Str.truthy n then n else table_name
       | None => table_name
       end in
     let table := {| t_name := final_table_name; t_columns := columns;
                     t_schema := target_schema |} in
     let dbms_dialect := dialect_name env s in
     let temp_table_header := dict_get create_temp_table_headers dbms_dialect in
     compiled <- call (CompileCreateTable s table) (fun tr => compiled_ddl env tr s table) ;;
     match temp_ddl temp_table_header compiled with
     | Return text => ret text
     | Raise e => raise e
     end).

Definition insert_data_partition (partition : DataFrame) (s : session)
    (target_table : string) (target_schema source_table : option string) : M unit :=
  try_except
    (let params_list := iter_rows_named partition in
     let tbl_name := table_name_formattter target_table target_schema in
     insert_sql <- call (InsertGen partition tbl_name source_table)
                        (fun tr => insert_statement env tr partition tbl_name source_table) ;;
     call (Execute s insert_sql (Some params_list)) (fun _ => tt))
    (fun e => print ("An error occurred: " +:+ exn_str e)).

Definition upsert_data_partition (self : DatabaseOperations) (s : session)
    (table_name dbms : string) (match_condition constraint_columns : list string)
    (source_table : string) : M unit :=
  let a := {| m_dataframe := dataframe self;
              m_table_name := table_name;
              m_match_condition := match_condition;
              m_dbms := dbms;
              m_constraint_columns := constraint_columns;
              m_source_table_name := source_table |} in
  merge_sql <- call (MergeGen a) (fun tr => merge_statement env tr a) ;;
  call (Execute s merge_sql None) (fun _ => tt) ;;;
  call (Commit s) (fun _ => tt).

Definition truncate_table (target_table : string) (target_schema : option string) : M unit :=
  with_database_engine
    (fun s =>
       call (Execute s ("DELETE FROM " +:+ target_table) None) (fun _ => tt) ;;;
       call (Commit s) (fun _ => tt)).

Definition load_dataframe (self : DatabaseOperations) (df : DataFrame) : DatabaseOperations :=
  {| dataframe := Some df |}.

(** Truth value of an [Optional[Union[str, bytes]]]. *)
Definition truthy_sql (o : option str_or_bytes) : bool :=
  match o with
  | None => false
  | Some (SqlStr s) | Some (SqlBytes s) => Str.truthy s
  end.

(** The local function [get_sql_query] of [copy_source_db].  On [bytes]
    the test [sql_input.endswith('.sql')] is a type error; it is reached
    only when the path names a file. *)
Definition get_sql_query (sql_input : str_or_bytes) : M str_or_bytes :=
  is_file <- call (IsFile sql_input) (fun tr => isfile env tr sql_input) ;;
  if is_file then
    match sql_input with
    | SqlStr path =>
        if Str.endswith ".sql" path
        then contents <- call (ReadFile path) (fun tr => file_contents env tr path) ;;
             ret (SqlStr contents)
        else ret sql_input
    | SqlBytes _ =>
        raise (TypeError "endswith first arg must be bytes or a tuple of bytes, not str")
    end
  else ret sql_input.

Definition copy_source_db (self : DatabaseOperations) (source_db_url : string)
    (source_table_name : option string) (source_query : option str_or_bytes)
    (source_schema_name : option string) (chunk_size : option Z) : M DatabaseOperations :=
  url_with_password <- call (CreateEngine source_db_url)
                            (fun tr => engine_url env tr source_db_url) ;;
  if negb (Str.truthy_opt source_table_name || truthy_sql source_query)
  then raise (ValueError "Either source_table_name or source_query must be provided.")
  else
    let table_name := table_name_formattter_untyped source_table_name source_schema_name in
    let query := "SELECT * FROM " +:+ fstr_opt table_name in
    sql_query <- match source_query with
                 | Some q => get_sql_query q
                 | None => ret (SqlStr query)
                 end ;;
    df <- call (ReadDatabaseUri sql_query url_with_password chunk_size)
               (fun tr => database_rows env tr sql_query url_with_password chunk_size) ;;
    ret {| dataframe := Some df |}.

(** The next call of a worker at the history [tr]: the entry it leaves
    and what the worker still has to do. *)
Definition advance {A} (t : task A) (tr : trace) : option (entry * task A) :=
  match t with
  | Over _ => None
  | Ask ev answer k =>
      match raises env tr (ev tr) with
      | Some e => Some (Failed (ev tr) e, k (Raise e))
      | None => Some (Done (ev tr), k (Return (answer tr)))
      end
  | Say line k => Some (Done (Print line), k)
  end.

(** A worker on its own, from its first call to its last. *)
Fixpoint run_task {A} (t : task A) : M A :=
  match t with
  | Over r => fun tr => (r, tr)
  | Ask ev answer k => fun tr => let '(r, tr1) := call (ev tr) answer tr in run_task (k r) tr1
  | Say line k => fun tr => run_task k (tr ++ [Done (Print line)])
  end.

(** One call of the [j]-th of the workers that are still live; the
    others stay as they are. *)
Fixpoint step_live {A} (j : nat) (ts : list (task A)) (tr : trace)
    : list (task A) * trace :=
  match ts with
  | [] => ([], tr)
  | t :: rest =>
      match advance t tr with
      | None => let '(rest', tr1) := step_live j rest tr in (t :: rest', tr1)
      | Some (x, t') =>
          match j with
          | O => (t' :: rest, tr ++ [x])
          | S j' => let '(rest', tr1) := step_live j' rest tr in (t :: rest', tr1)
          end
      end
  end.

(** The pool: as long as a worker is live, the one picked by the
    scheduler makes its next call.  [fuel] bounds the number of calls. *)
Fixpoint run_pool {A} (fuel : nat) (ts : list (task A)) (tr : trace)
    : list (task A) * trace :=
  match fuel with
  | O => (ts, tr)
  | S fuel' =>
      match live_count ts with
      | O => (ts, tr)
      | S n =>
          let '(ts', tr1) := step_live (pick env tr (S n) mod S n) ts tr in
          run_pool fuel' ts' tr1
      end
  end.

(** [insert_data_partition], call by call. *)
Definition insert_data_partition_steps (partition : DataFrame) (s : session)
    (target_table : string) (target_schema source_table : option string) : task unit :=
  try_task
    (let params_list := iter_rows_named partition in
     let tbl_name := table_name_formattter target_table target_schema in
     then_task (ask (InsertGen partition tbl_name source_table)
                    (fun tr => insert_statement env tr partition tbl_name source_table))
               (fun insert_sql => ask (Execute s insert_sql (Some params_list)) (fun _ => tt)))
    (fun e => say ("An error occurred: " +:+ exn_str e)).

(** [insert_partition_with_session], call by call: what one worker of
    [db_insert] runs. *)
Definition insert_partition_with_session_steps (session_arg : option session)
    (target_table : string) (target_schema : option string) (part : DataFrame) : task unit :=
  try_task
    (match session_arg with
     | Some db_session =>
         insert_data_partition_steps part db_session target_table target_schema None
     | None =>
         with_task (fun tr => EngineEnter (fresh_session env tr)) (fresh_session env)
                   EngineExit
                   (fun db_session =>
                      insert_data_partition_steps part db_session target_table
                                                  target_schema None)
     end)
    (fun e => say ("An error occurred in insert_partition_with_session: " +:+ exn_str e)).

(** A worker of [db_insert] makes at most six calls: entering the
    engine, generating the statement, executing it, printing the error,
    leaving the engine, printing the error of that. *)
Definition worker_calls : nat := 6.

(** [with ThreadPoolExecutor() as executor: executor.map(task, parts)]:
    every partition is handed to the pool, the workers run interleaved,
    and the block ends when all of them are over: [worker_calls] calls
    for each worker are enough for that.  The results of the map are
    never read, so whatever a worker raises stays in its future. *)
Definition executor_map (task : DataFrame -> task unit) (parts : list DataFrame) : M unit :=
  fun tr =>
    (Return tt, snd (run_pool (worker_calls * List.length parts) (map task parts) tr)).

(** The local function [insert_partition_with_session] of [db_insert]. *)
Definition insert_partition_with_session (session_arg : option session)
    (target_table : string) (target_schema : option string) (part : DataFrame) : M unit :=
  try_except
    (match session_arg with
     | Some db_session =>
         insert_data_partition part db_session target_table target_schema None
     | None =>
         with_database_engine
           (fun db_session =>
              insert_data_partition part db_session target_table target_schema None)
     end)
    (fun e => print ("An error occurred in insert_partition_with_session: " +:+ exn_str e)).

Definition db_insert (self : DatabaseOperations) (target_table : string)
    (target_schema : option string) (session_arg : option session)
    (partition_by : option str_or_list) (full_refresh : pyval) (chunk_size : Z) : M unit :=
  match dataframe self with
  | None => raise (ValueError "No DataFrame loaded.")
  | Some df =>
      partition_by <- match partition_by with
                      | Some (AList []) => raise (IndexError "list index out of range")
                      | Some (AList (first :: _)) => ret (Some (AStr first))
                      | other => ret other
                      end ;;
      partition <- call (PartitionDataframe (Some df) chunk_size partition_by)
                        (fun tr => partitions env tr (Some df) chunk_size partition_by) ;;
      (if py_eq_str full_refresh "Y"
       then truncate_table (table_name_formattter target_table target_schema) None
       else ret tt) ;;;
      executor_map (insert_partition_with_session_steps session_arg target_table target_schema)
                   partition
  end.

Definition db_merge (self : DatabaseOperations) (target_table : string)
    (target_schema : option string) (match_condition constraint_columns : option (list string))
    (partition_by : option str_or_list) (chunk_size : Z) : M unit :=
  with_database_engine
    (fun s =>
       info <- call (GetTableColumnInfo s target_table target_schema)
                    (fun tr => table_column_info env tr s target_table target_schema) ;;
       let '(auto_columns, primary_key_list) := info in
       partition <- call (PartitionDataframe (dataframe self) chunk_size partition_by)
                         (fun tr => partitions env tr (dataframe self) chunk_size partition_by) ;;
       let constraint_list :=
         match constraint_columns with None => auto_columns | Some c => c end in
       let match_list :=
         match match_condition with None => primary_key_list | Some m => m end in
       dbms <- call GetDbmsDialect (dbms_dialect env) ;;
       gen_temp_table_name <- generate_temp_table_name target_table ;;
       temp_table <- create_temp_table s target_table target_schema
                                       (Some gen_temp_table_name) None ;;
       call (Execute s temp_table None) (fun _ => tt) ;;;
       let gen_temp_table_name :=
         if String.eqb dbms "mssql" then "##" +:+ gen_temp_table_name
         else gen_temp_table_name in
       print ("Begin " +:+ gen_temp_table_name +:+ " insert") ;;;
       db_insert self gen_temp_table_name None (Some s) partition_by (VStr "N") chunk_size ;;;
       upsert_data_partition self s (table_name_formattter target_table target_schema)
                             dbms match_list constraint_list gen_temp_table_name).

End Operations.

(* ================================================================= *)
(** ** A small concrete world, for running the operations *)

Module Demo.

Definition newline : string := String "010"%char EmptyString.
Definition tab : string := String "009"%char EmptyString.

(** A stand-in for the DDL compiler: one line per column.  For SQL
    Server names are bracketed and a key column carries its identity
    clause, as that dialect's compiler renders an integer key. *)
Definition render_column (dialect : string) (c : Column) : string :=
  if String.eqb dialect "mssql"
  then tab +:+ "[" +:+ c_name c +:+ "] " +:+ c_type c
           +:+ (if c_primary_key c then " NOT NULL IDENTITY(1,1)" else "")
  else tab +:+ c_name c +:+ " " +:+ c_type c
           +:+ (if c_primary_key c then " NOT NULL" else "").

Definition render_table (dialect : string) (t : Table) : string :=
  newline +:+ "CREATE TABLE "
    +:+ match t_schema t with Some sch => sch +:+ "." | None => "" end
    +:+ t_name t +:+ " (" +:+ newline
    +:+ String.concat ("," +:+ newline) (map (render_column dialect) (t_columns t))
    +:+ newline +:+ ")" +:+ newline.

(** A stand-in for the partitioner: consecutive chunks of [size] rows. *)
Fixpoint chunks (fuel size : nat) (rows : list (list pyval)) : list (list (list pyval)) :=
  match fuel, rows with
  | S fuel', _ :: _ => firstn size rows :: chunks fuel' size (skipn size rows)
  | _, _ => []
  end.

Definition chunk_frames (df : option DataFrame) (chunk_size : Z) : list DataFrame :=
  match df with
  | None => []
  | Some d =>
      map (fun rows => {| columns := columns d; data := rows |})
          (chunks (List.length (data d)) (Z.to_nat chunk_size) (data d))
  end.

(** A world for the dialect [dialect] in which exactly the calls picked
    out by [failing] raise, and in which the pool lets the last of its
    running workers go on until it is over. *)
Definition world (dialect : string) (failing : event -> option exn)
    (cols : list (string * string)) : Collab :=
  {| raises := fun _ ev => failing ev;
     fresh_session := fun tr => List.length tr;
     dialect_name := fun _ => dialect;
     columns_info := fun _ _ _ _ => cols;
     pk_constrained_columns := fun _ _ _ _ => ["id"];
     compiled_ddl := fun _ _ t => render_table dialect t;
     table_column_info := fun _ _ _ _ => (["status"], ["id"]);
     partitions := fun _ df chunk_size _ => chunk_frames df chunk_size;
     insert_statement := fun _ _ tbl _ => "INSERT INTO " +:+ tbl +:+ " VALUES (:id, :status)";
     merge_statement := fun _ a =>
       "MERGE INTO " +:+ m_table_name a +:+ " USING " +:+ m_source_table_name a
         +:+ " ON " +:+ String.concat "," (m_match_condition a)
         +:+ " SET " +:+ String.concat "," (m_constraint_columns a);
     dbms_dialect := fun _ => dialect;
     random_suffix := fun _ => "abcd";
     engine_url := fun _ url => url;
     isfile := fun _ _ => false;
     file_contents := fun _ _ => "";
     database_rows := fun _ _ _ _ =>
       {| columns := ["id"; "status"]; data := [[VInt 7; VStr "new"]] |};
     pick := fun _ running => Nat.pred running |}.

Definition no_failure (ev : event) : option exn := None.

Definition orders_columns : list (string * string) :=
  [("id", "INTEGER"); ("status", "VARCHAR(20)")].

Definition orders : DataFrame :=
  {| columns := ["id"; "status"];
     data := [[VInt 1; VStr "open"]; [VInt 2; VStr "paid"]; [VInt 3; VStr "sent"]] |}.

Definition loaded : DatabaseOperations := {| dataframe := Some orders |}.

(** The second chunk of [orders] at chunk size 2. *)
Definition second_chunk : DataFrame :=
  {| columns := ["id"; "status"]; data := [[VInt 3; VStr "sent"]] |}.

(** A world in which inserting [second_chunk] is rejected by the engine. *)
Definition rejects_second_chunk (ev : event) : option exn :=
  match ev with
  | Execute _ _ (Some [[(_, VInt 3); _]]) =>
      Some (OtherError "IntegrityError" "duplicate key")
  | _ => None
  end.

End Demo.

(** A world in which [etl/orders.sql] is a file holding a query. *)
Definition world_with_query_file : Collab :=
  {| raises := fun _ _ => None;
     fresh_session := fun tr => List.length tr;
     dialect_name := fun _ => "postgresql";
     columns_info := fun _ _ _ _ => Demo.orders_columns;
     pk_constrained_columns := fun _ _ _ _ => ["id"];
     compiled_ddl := fun _ _ t => Demo.render_table "postgresql" t;
     table_column_info := fun _ _ _ _ => (["status"], ["id"]);
     partitions := fun _ df chunk_size _ => Demo.chunk_frames df chunk_size;
     insert_statement := fun _ _ tbl _ => "INSERT INTO " +:+ tbl;
     merge_statement := fun _ a => "MERGE INTO " +:+ m_table_name a;
     dbms_dialect := fun _ => "postgresql";
     random_suffix := fun _ => "abcd";
     engine_url := fun _ url => url;
     isfile := fun _ p => match p with
                          | SqlStr s | SqlBytes s => String.eqb s "etl/orders.sql"
                          end;
     file_contents := fun _ _ => "SELECT id, status FROM orders WHERE status = 'open'";
     database_rows := fun _ _ _ _ => Demo.orders;
     pick := fun _ _ => 0%nat |}.

(** The world of [Demo.world] for PostgreSQL, with a scheduler under which
    the running workers take turns. *)
Definition world_taking_turns (failing : event -> option exn) : Collab :=
  let w := Demo.world "postgresql" failing Demo.orders_columns in
  {| raises := raises w;
     fresh_session := fresh_session w;
     dialect_name := dialect_name w;
     columns_info := columns_info w;
     pk_constrained_columns := pk_constrained_columns w;
     compiled_ddl := compiled_ddl w;
     table_column_info := table_column_info w;
     partitions := partitions w;
     insert_statement := insert_statement w;
     merge_statement := merge_statement w;
     dbms_dialect := dbms_dialect w;
     random_suffix := random_suffix w;
     engine_url := engine_url w;
     isfile := isfile w;
     file_contents := file_contents w;
     database_rows := database_rows w;
     pick := fun tr _ => List.length tr |}.

(* ================================================================= *)
(** ** Vocabulary for the statements *)

(** A world in which no collaborator ever raises. *)
Definition never_raises (env : Collab) : Prop :=
  forall tr ev, raises env tr ev = None.

(** The call behind a trace entry. *)
Definition event_of (x : entry) : event :=
  match x with
  | Done ev => ev
  | Failed ev _ => ev
  end.

(** Entries written on behalf of a partition insert: the request for its
    INSERT statement and the execution of a statement with bound rows. *)
Definition is_insert_entry (x : entry) : bool :=
  match event_of x with
  | InsertGen _ _ _ => true
  | Execute _ _ (Some _) => true
  | _ => false
  end.

(** Entries only a truncate writes: a statement without bound rows, or a
    commit. *)
Definition is_truncate_entry (x : entry) : bool :=
  match event_of x with
  | Execute _ _ None => true
  | Commit _ => true
  | _ => false
  end.

(** Entries the worker pool of [db_insert] can write. *)
Definition is_load_entry (x : entry) : bool :=
  match event_of x with
  | InsertGen _ _ _ => true
  | Execute _ _ (Some _) => true
  | Print _ => true
  | EngineEnter _ => true
  | EngineExit _ => true
  | _ => false
  end.

(** Started from [tr], the computation [m] only appends entries, and all
    of them satisfy [P]. *)
Definition emits {A} (P : entry -> Prop) (m : M A) (tr : trace) : Prop :=
  exists t, snd (m tr) = tr ++ t /\ Forall P t.

(** All four rewrites of [create_temp_table] applied to a compiled DDL. *)
Definition rewritten (header compiled : string) : string :=
  Re.sub_identity
    (Str.replace "[" "" (Str.replace "]" ""
       (Str.replace "CREATE TABLE " header (Str.replace double_quote "" compiled)))).

(** [c in s] for a single character [c]. *)
Fixpoint has_char (c : ascii) (s : string) : bool :=
  match s with
  | EmptyString => false
  | String x rest => Ascii.eqb c x || has_char c rest
  end.

(** The request for the merge statement. *)
Definition is_merge_gen (x : entry) : bool :=
  match event_of x with
  | MergeGen _ => true
  | _ => false
  end.

(** The merge statement was generated. *)
Definition is_merge_generated (x : entry) : bool :=
  match x with
  | Done (MergeGen _) => true
  | _ => false
  end.

Definition is_commit (x : entry) : bool :=
  match event_of x with
  | Commit _ => true
  | _ => false
  end.

Definition is_execute (x : entry) : bool :=
  match event_of x with
  | Execute _ _ _ => true
  | _ => false
  end.


(** An engine session was handed out. *)
Definition engine_opened (x : entry) : bool :=
  match x with
  | Done (EngineEnter _) => true
  | _ => false
  end.

(** Leaving an engine session was attempted. *)
Definition engine_closed (x : entry) : bool :=
  match event_of x with
  | EngineExit _ => true
  | _ => false
  end.

(** A [with session:] block was entered. *)
Definition session_opened (x : entry) : bool :=
  match x with
  | Done (SessionEnter _) => true
  | _ => false
  end.

(** Leaving a [with session:] block was attempted. *)
Definition session_closed (x : entry) : bool :=
  match event_of x with
  | SessionExit _ => true
  | _ => false
  end.

(** How many entries of [t] satisfy [f]. *)
Definition count (f : entry -> bool) (t : trace) : nat :=
  List.length (filter f t).

(** Started from [tr], the computation [m] only appends entries, and what
    it appends satisfies [R]. *)
Definition appends {A} (R : trace -> Prop) (m : M A) (tr : trace) : Prop :=
  exists t, snd (m tr) = tr ++ t /\ R t.

(** Every entry of [t], written after the history [h], satisfies [Phi]
    at the history it was written at. *)
Fixpoint each_at (Phi : trace -> entry -> Prop) (h t : trace) : Prop :=
  match t with
  | [] => True
  | x :: t' => Phi h x /\ each_at Phi (h ++ [x]) t'
  end.

(** Started from [tr], the computation [m] only appends entries, and
    every entry it appends satisfies [Phi] at the history it was written
    at. *)
Definition sees {A} (Phi : trace -> entry -> Prop) (m : M A) (tr : trace) : Prop :=
  exists t, snd (m tr) = tr ++ t /\ each_at Phi tr t.

(** Whatever the worker [t] does from a history that extends [p0], and
    whatever is written between its calls, each of its entries satisfies
    [Phi] at the history it is written at. *)
Fixpoint task_sees {A} (env : Collab) (Phi : trace -> entry -> Prop) (t : task A)
    (p0 : trace) : Prop :=
  match t with
  | Over _ => True
  | Ask ev answer k =>
      forall more,
        let h := p0 ++ more in
        (raises env h (ev h) = None ->
         Phi h (Done (ev h))
         /\ task_sees env Phi (k (Return (answer h))) (h ++ [Done (ev h)]))
        /\ (forall e, raises env h (ev h) = Some e ->
                      Phi h (Failed (ev h) e)
                      /\ task_sees env Phi (k (Raise e)) (h ++ [Failed (ev h) e]))
  | Say line k =>
      forall more,
        let h := p0 ++ more in
        Phi h (Done (Print line)) /\ task_sees env Phi k (h ++ [Done (Print line)])
  end.

(** The worker [t] makes at most [n] calls. *)
Fixpoint calls_at_most {A} (n : nat) (t : task A) : Prop :=
  match t with
  | Over _ => True
  | Ask _ _ k =>
      match n with
      | O => False
      | S m => forall r, calls_at_most m (k r)
      end
  | Say _ k =>
      match n with
      | O => False
      | S m => calls_at_most m k
      end
  end.

(** [l] is what the worker [t] writes from its first call to its last,
    in some run: each call made at some history, the next one chosen by
    its outcome. *)
Fixpoint task_trace {A} (env : Collab) (t : task A) (l : trace) : Prop :=
  match t with
  | Over _ => l = []
  | Ask ev answer k =>
      exists h rest,
        (raises env h (ev h) = None
         /\ l = Done (ev h) :: rest
         /\ task_trace env (k (Return (answer h))) rest)
        \/ (exists e, raises env h (ev h) = Some e
                      /\ l = Failed (ev h) e :: rest
                      /\ task_trace env (k (Raise e)) rest)
  | Say line k =>
      exists rest, l = Done (Print line) :: rest /\ task_trace env k rest
  end.

(** [t] interleaves the lists [ls]: it holds the entries of each of
    them, in the order that list has them, and nothing else. *)
Inductive merged : list trace -> trace -> Prop :=
| merged_nil ls : Forall (fun l => l = []) ls -> merged ls []
| merged_cons ls1 x l ls2 t :
    merged (ls1 ++ l :: ls2) t -> merged (ls1 ++ (x :: l) :: ls2) (x :: t).

(** The partitions for which [t] requests an INSERT statement, in the
    order of the requests. *)
Definition requested_partitions (t : trace) : list DataFrame :=
  flat_map (fun x => match event_of x with
                     | InsertGen p _ _ => [p]
                     | _ => []
                     end) t.

(** From the history [tr0] on: if the entry [x], written at the history
    [h], executes a statement with bound rows, then an INSERT statement
    into [tn] was generated before it for some partition, the statement
    executed is the one that request answered, and the rows bound are
    the rows of that partition. *)
Definition rows_of_generated_statement (env : Collab) (tn : string) (tr0 h : trace)
    (x : entry) : Prop :=
  forall s sql rows,
    event_of x = Execute s sql (Some rows) ->
    exists pre1 pre2 p,
      h = tr0 ++ pre1 ++ Done (InsertGen p tn None) :: pre2
      /\ rows = iter_rows_named p
      /\ sql = insert_statement env (tr0 ++ pre1) p tn None.

(** Started from [tr], the computation [m] appends entries that satisfy
    [P] and, after them, entries that satisfy [Q]. *)
Definition two_phase {A} (P Q : entry -> Prop) (m : M A) (tr : trace) : Prop :=
  exists t1 t2, snd (m tr) = tr ++ t1 ++ t2 /\ Forall P t1 /\ Forall Q t2.

(** Started from [tr], the computation [m] appends entries that satisfy
    [P] until, if ever, it appends an entry marked by [mark]. *)
Definition until_mark {A} (mark : entry -> bool) (P : entry -> Prop) (m : M A)
    (tr : trace) : Prop :=
  exists t, snd (m tr) = tr ++ t
            /\ (Forall P t
                \/ exists t1 y t2, t = t1 ++ y :: t2 /\ mark y = true /\ Forall P t1).

(** The name under which [db_merge], started from [tr], refers to its
    staging table once it is created: the generated name, with the
    SQL Server prefix when the engine reports that dialect. *)
Definition staging_table_name (env : Collab) (self : DatabaseOperations)
    (target_table : string) (target_schema : option string)
    (partition_by : option str_or_list) (chunk_size : Z) (tr : trace) : string :=
  let s := fresh_session env tr in
  let tr1 := tr ++ [Done (EngineEnter s)] in
  let tr2 := tr1 ++ [Done (GetTableColumnInfo s target_table target_schema)] in
  let tr3 := tr2 ++ [Done (PartitionDataframe (dataframe self) chunk_size partition_by)] in
  let dbms := dbms_dialect env tr3 in
  let uid := random_suffix env (tr3 ++ [Done GetDbmsDialect]) in
  let name := "_source_" +:+ target_table +:+ "_" +:+ uid in
  if String.eqb dbms "mssql" then "##" +:+ name else name.

(* ================================================================= *)
(** ** Facts about the string functions *)

Lemma append_assoc (a b c : string) : (a +:+ b) +:+ c = a +:+ (b +:+ c).
Proof. induction a as [|x a IH]; simpl; [reflexivity | now rewrite IH]. Qed.

Lemma length_append (a b : string) :
  String.length (a +:+ b) = (String.length a + String.length b)%nat.
Proof. induction a as [|x a IH]; simpl; [reflexivity | now rewrite IH]. Qed.

Lemma after_prefix_append (p s : string) : Str.after_prefix p (p +:+ s) = Some s.
Proof.
  induction p as [|c p IH]; simpl; [reflexivity|].
  now rewrite Ascii.eqb_refl.
Qed.

Lemma startswith_append (p s : string) : Str.startswith p (p +:+ s) = true.
Proof.
  induction p as [|c p IH]; simpl; [reflexivity|].
  now rewrite Ascii.eqb_refl.
Qed.

(** Characters of an occurrence already accounted for are passed over. *)
Lemma replace_scan_skip (old new a rest : string) :
  Str.replace_scan old new (String.length a) (a +:+ rest) = Str.replace_scan old new 0 rest.
Proof.
  induction a as [|c a IH]; simpl.
  - destruct rest; reflexivity.
  - exact IH.
Qed.

(** An occurrence at the head is replaced and the scan resumes behind it. *)
Lemma replace_head (c : ascii) (old new s : string) :
  Str.replace (String c old) new (String c old +:+ s) = new +:+ Str.replace (String c old) new s.
Proof.
  unfold Str.replace. cbn [append Str.replace_scan].
  change (String c (old +:+ s)) with (String c old +:+ s).
  rewrite startswith_append.
  replace (String.length (String c old) - 1)%nat with (String.length old)
    by (cbn [String.length]; lia).
  now rewrite replace_scan_skip.
Qed.

Lemma sub_scan_skip (a rest : string) :
  Re.sub_scan (String.length a) (a +:+ rest) = Re.sub_scan 0 rest.
Proof.
  induction a as [|c a IH]; simpl.
  - destruct rest; reflexivity.
  - exact IH.
Qed.

(** A character at which the pattern does not match is copied. *)
Lemma sub_identity_copy (c : ascii) (s : string) :
  Re.match_identity (String c s) = None ->
  Re.sub_identity (String c s) = String c (Re.sub_identity s).
Proof.
  intros H. unfold Re.sub_identity. cbn [Re.sub_scan]. now rewrite H.
Qed.

(** A match of [n] characters at the head is deleted. *)
Lemma sub_identity_match (a rest : string) :
  Re.match_identity (a +:+ rest) = Some (String.length a) ->
  a <> EmptyString ->
  Re.sub_identity (a +:+ rest) = Re.sub_identity rest.
Proof.
  intros H Ha. destruct a as [|c a]; [congruence|].
  unfold Re.sub_identity. cbn [append Re.sub_scan].
  change (String c (a +:+ rest)) with (String c a +:+ rest).
  rewrite H.
  replace (String.length (String c a) - 1)%nat with (String.length a)
    by (cbn [String.length]; lia).
  apply sub_scan_skip.
Qed.

Lemma span_digits_append (m rest : string) (c : ascii) :
  Re.all_digits m = true ->
  Re.is_digit c = false ->
  Re.span_digits (m +:+ String c rest) = (String.length m, String c rest).
Proof.
  intros Hm Hc. induction m as [|d m IH]; cbn [append Re.span_digits String.length].
  - now rewrite Hc.
  - cbn [Re.all_digits] in Hm. apply andb_true_iff in Hm as [Hd Hm].
    rewrite Hd, (IH Hm). reflexivity.
Qed.

(** The group matches a parenthesised pair of digit strings in full. *)
Lemma match_seed_increment_pair (m n rest : string) :
  Re.all_digits m = true -> m <> EmptyString ->
  Re.all_digits n = true -> n <> EmptyString ->
  Re.match_seed_increment ("(" +:+ m +:+ "," +:+ n +:+ ")" +:+ rest)
  = Some (String.length ("(" +:+ m +:+ "," +:+ n +:+ ")")).
Proof.
  intros Hm Hm0 Hn Hn0.
  cbn [append Re.match_seed_increment].
  rewrite (span_digits_append m _ ","%char Hm eq_refl).
  destruct m as [|m0 m']; [congruence|]. cbn [String.length].
  rewrite (span_digits_append n _ ")"%char Hn eq_refl).
  destruct n as [|n0 n']; [congruence|]. cbn [String.length].
  f_equal. rewrite !length_append. cbn [String.length append]. 
  rewrite !length_append. cbn [String.length]. lia.
Qed.

Lemma temp_ddl_rewritten (header compiled : string) :
  temp_ddl (Some header) compiled = Return (rewritten header compiled).
Proof. reflexivity. Qed.

(* ================================================================= *)
(** ** The identifier formatter *)

(** C8: [table_name_formattter] is a total function of its two arguments
    (no state, no exception): with a schema present (a non-empty string)
    it returns [schema.table], and otherwise (no schema, or the empty
    string, which Python treats as absent) the bare table name. *)
Theorem table_name_formattter_spec (table_name : string) :
  (forall c s, table_name_formattter table_name (Some (String c s))
               = String c s +:+ "." +:+ table_name)
  /\ table_name_formattter table_name None = table_name
  /\ table_name_formattter table_name (Some EmptyString) = table_name.
Proof. repeat split. Qed.

Lemma table_name_formattter_untyped_some (t : string) (schema : option string) :
  table_name_formattter_untyped (Some t) schema = Some (table_name_formattter t schema).
Proof. destruct schema as [[|c s]|]; reflexivity. Qed.

(* ================================================================= *)
(** ** The identity-stripping rewrite *)

Lemma sub_identity_with_pair (m n rest : string) :
  Re.all_digits m = true -> m <> EmptyString ->
  Re.all_digits n = true -> n <> EmptyString ->
  Re.sub_identity ("IDENTITY(" +:+ m +:+ "," +:+ n +:+ ")" +:+ rest) = Re.sub_identity rest.
Proof.
  intros Hm Hm0 Hn Hn0.
  pose (g := "(" +:+ m +:+ "," +:+ n +:+ ")").
  assert (E : "IDENTITY(" +:+ m +:+ "," +:+ n +:+ ")" +:+ rest = ("IDENTITY" +:+ g) +:+ rest).
  { unfold g. rewrite !append_assoc. reflexivity. }
  rewrite E. apply sub_identity_match; [|discriminate].
  unfold Re.match_identity. rewrite append_assoc, after_prefix_append.
  unfold g. rewrite !append_assoc.
  rewrite (match_seed_increment_pair m n rest Hm Hm0 Hn Hn0).
  reflexivity.
Qed.

Lemma sub_identity_bare (rest : string) :
  Re.match_seed_increment rest = None ->
  Re.sub_identity ("IDENTITY" +:+ rest) = Re.sub_identity rest.
Proof.
  intros H. apply sub_identity_match; [|discriminate].
  unfold Re.match_identity. rewrite after_prefix_append, H. reflexivity.
Qed.

(** Text in which no match starts is copied as it is. *)
Lemma sub_identity_prefix (pre suffix : string) :
  Re.no_match_within pre suffix = true ->
  Re.sub_identity (pre +:+ suffix) = pre +:+ Re.sub_identity suffix.
Proof.
  induction pre as [|c p IH]; intros H; [reflexivity|].
  cbn [Re.no_match_within] in H. cbn [append] in *.
  destruct (Re.match_identity (String c (p +:+ suffix))) eqn:E; [discriminate|].
  rewrite (sub_identity_copy _ _ E), (IH H). reflexivity.
Qed.

(** X22: where the scan reaches it, the rewrite deletes an identity
    clause and leaves the text around it: [IDENTITY(m,n)] goes, for
    digit strings [m] and [n] that are not empty, and so does an
    [IDENTITY] that no such pair follows. *)
Theorem identity_clause_deleted (pre m n rest : string) :
  Re.all_digits m = true -> m <> EmptyString ->
  Re.all_digits n = true -> n <> EmptyString ->
  (Re.no_match_within pre ("IDENTITY(" +:+ m +:+ "," +:+ n +:+ ")" +:+ rest) = true ->
   Re.sub_identity (pre +:+ "IDENTITY(" +:+ m +:+ "," +:+ n +:+ ")" +:+ rest)
   = pre +:+ Re.sub_identity rest)
  /\ (Re.no_match_within pre ("IDENTITY" +:+ rest) = true ->
      Re.match_seed_increment rest = None ->
      Re.sub_identity (pre +:+ "IDENTITY" +:+ rest) = pre +:+ Re.sub_identity rest).
Proof.
  intros Hm Hm0 Hn Hn0. split.
  - intros Hp. rewrite (sub_identity_prefix _ _ Hp). f_equal.
    now apply sub_identity_with_pair.
  - intros Hp Hr. rewrite (sub_identity_prefix _ _ Hp). f_equal.
    now apply sub_identity_bare.
Qed.

Lemma identity_clause_deleted_witness :
  Re.sub_identity ("id INT " +:+ "IDENTITY(" +:+ "1" +:+ "," +:+ "1" +:+ ")" +:+ " NOT NULL")
  = "id INT " +:+ Re.sub_identity " NOT NULL"
  /\ Re.sub_identity ("id INT " +:+ "IDENTITY" +:+ " NOT NULL")
     = "id INT " +:+ Re.sub_identity " NOT NULL".
Proof.
  destruct (identity_clause_deleted "id INT " "1" "1" " NOT NULL")
    as (A & B); try reflexivity; try discriminate.
  split; [apply A | apply B]; reflexivity.
Defined.

(** C3: the rewrite is to remove identity clauses and to leave every
    other token as it is.  The pattern it searches for has no token
    boundary, so the text [IDENTITY] goes from the start of a longer name
    too: for a SQL Server table with an identity key [id] and a column
    named [IDENTITY_COL], the identity clause of [id] is removed and the
    column is rendered as [_COL].  And the seed and the increment of the
    pattern are digits without a sign: of [IDENTITY(-1,1)] the pair stays
    in the text. *)
Theorem identity_col_loses_its_prefix :
  let nl := Demo.newline in
  let tab := Demo.tab in
  let compiled :=
    Demo.render_table "mssql"
                      {| t_name := "orders";
                         t_columns := [{| c_name := "id"; c_type := "INTEGER";
                                          c_primary_key := true |};
                                       {| c_name := "IDENTITY_COL"; c_type := "INTEGER";
                                          c_primary_key := false |}];
                         t_schema := None |} in
  compiled = nl +:+ "CREATE TABLE orders (" +:+ nl
                +:+ tab +:+ "[id] INTEGER NOT NULL IDENTITY(1,1)," +:+ nl
                +:+ tab +:+ "[IDENTITY_COL] INTEGER" +:+ nl
                +:+ ")" +:+ nl
  /\ temp_ddl (Some "CREATE TABLE ##") compiled
     = Return (nl +:+ "CREATE TABLE ##orders (" +:+ nl
                  +:+ tab +:+ "id INTEGER NOT NULL ," +:+ nl
                  +:+ tab +:+ "_COL INTEGER" +:+ nl
                  +:+ ")" +:+ nl)
  /\ Re.sub_identity "id INTEGER NOT NULL IDENTITY(-1,1)" = "id INTEGER NOT NULL (-1,1)".
Proof. repeat split. Qed.

(* ================================================================= *)
(** ** The pool *)

Lemma advance_none {A} env (t : task A) tr :
  advance env t tr = None <-> is_live t = false.
Proof.
  destruct t as [r|X ev answer k|line k]; simpl.
  - tauto.
  - destruct (raises env tr (ev tr)); split; discriminate.
  - split; discriminate.
Qed.

(** A step of the pool is one call of one live worker. *)
Lemma step_live_spec {A} env (ts : list (task A)) :
  forall j tr,
    j < live_count ts ->
    exists l1 t l2 x t',
      ts = l1 ++ t :: l2
      /\ advance env t tr = Some (x, t')
      /\ step_live env j ts tr = (l1 ++ t' :: l2, tr ++ [x]).
Proof.
  induction ts as [|t0 rest IH]; intros j tr Hj.
  - cbn in Hj. lia.
  - cbn [step_live]. unfold live_count in Hj. cbn [filter] in Hj.
    destruct (advance env t0 tr) as [[x t']|] eqn:Ea.
    + assert (Hl : is_live t0 = true).
      { destruct (is_live t0) eqn:L; [reflexivity|].
        apply (advance_none env t0 tr) in L. congruence. }
      rewrite Hl in Hj. cbn [List.length] in Hj.
      destruct j as [|j'].
      * exists [], t0, rest, x, t'. cbn [app]. auto.
      * destruct (IH j' tr) as (l1 & t & l2 & y & t1 & E & Et & Es);
          [unfold live_count; lia|].
        exists (t0 :: l1), t, l2, y, t1. rewrite Es, E. cbn [app]. auto.
    + apply advance_none in Ea. rewrite Ea in Hj.
      destruct (IH j tr) as (l1 & t & l2 & y & t1 & E & Et & Es);
        [exact Hj|].
      exists (t0 :: l1), t, l2, y, t1. rewrite Es, E. cbn [app]. auto.
Qed.

Lemma task_sees_later {A} env Phi (t : task A) p0 more :
  task_sees env Phi t p0 -> task_sees env Phi t (p0 ++ more).
Proof.
  destruct t as [r|X ev answer k|line k]; cbn [task_sees]; intros H.
  - exact I.
  - intros more'. rewrite <- app_assoc. apply (H (more ++ more')).
  - intros more'. rewrite <- app_assoc. apply (H (more ++ more')).
Qed.

Lemma advance_sees {A} env Phi (t : task A) tr x t' :
  task_sees env Phi t tr ->
  advance env t tr = Some (x, t') ->
  Phi tr x /\ task_sees env Phi t' (tr ++ [x]).
Proof.
  destruct t as [r|X ev answer k|line k]; cbn [task_sees advance]; intros H E.
  - discriminate.
  - specialize (H []). rewrite app_nil_r in H. cbv zeta in H.
    destruct H as [Hok Hfail].
    destruct (raises env tr (ev tr)) as [e|] eqn:R; injection E as <- <-.
    + apply Hfail. reflexivity.
    + apply Hok. reflexivity.
  - specialize (H []). rewrite app_nil_r in H. cbv zeta in H.
    injection E as <- <-. exact H.
Qed.

(** Whatever the scheduler picks, and however long the pool runs, an
    entry the workers can only write under [Phi] is written under
    [Phi]. *)
Lemma run_pool_sees {A} env Phi fuel :
  forall (ts : list (task A)) tr,
    Forall (fun t => task_sees env Phi t tr) ts ->
    exists new, snd (run_pool env fuel ts tr) = tr ++ new /\ each_at Phi tr new.
Proof.
  induction fuel as [|fuel IH]; intros ts tr Hts.
  - exists []. cbn. rewrite app_nil_r. split; [reflexivity|exact I].
  - cbn [run_pool]. destruct (live_count ts) as [|n] eqn:L.
    + exists []. cbn. rewrite app_nil_r. split; [reflexivity|exact I].
    + destruct (step_live_spec env ts (pick env tr (S n) mod S n) tr)
        as (l1 & t & l2 & x & t' & E & Ea & Es).
      { rewrite L. apply Nat.mod_upper_bound. discriminate. }
      rewrite Es. subst ts.
      apply Forall_app in Hts. destruct Hts as [H1 H2].
      apply Forall_cons_iff in H2. destruct H2 as [Ht H2].
      destruct (advance_sees env Phi t tr x t' Ht Ea) as [Hx Ht'].
      destruct (IH (l1 ++ t' :: l2) (tr ++ [x])) as (new & En & Hn).
      { apply Forall_app. split; [|apply Forall_cons].
        - eapply Forall_impl; [|exact H1]. intros. now apply task_sees_later.
        - exact Ht'.
        - eapply Forall_impl; [|exact H2]. intros. now apply task_sees_later. }
      exists (x :: new). rewrite En, <- app_assoc. split; [reflexivity|].
      split; assumption.
Qed.

Lemma sees_emits {A} (P : entry -> Prop) (m : M A) tr :
  sees (fun _ x => P x) m tr -> emits P m tr.
Proof.
  intros (t & E & H). exists t. split; [exact E|].
  clear E. revert tr H. induction t as [|x t IH]; intros tr H; constructor.
  - apply H.
  - eapply IH, H.
Qed.

Lemma executor_map_sees env Phi (task : DataFrame -> task unit) parts tr :
  (forall p, task_sees env Phi (task p) tr) ->
  sees Phi (executor_map env task parts) tr.
Proof.
  intros Ht. unfold sees, executor_map. cbn [snd].
  apply run_pool_sees. apply Forall_forall. intros t Hin.
  apply in_map_iff in Hin. destruct Hin as (p & <- & _). apply Ht.
Qed.

Lemma executor_map_emits_tasks env (P : entry -> Prop) (task : DataFrame -> task unit)
    parts tr :
  (forall p, task_sees env (fun _ x => P x) (task p) tr) ->
  emits P (executor_map env task parts) tr.
Proof. intros Ht. apply sees_emits, executor_map_sees, Ht. Qed.

Lemma executor_map_returns env task parts tr :
  exists t, executor_map env task parts tr = (Return tt, t).
Proof. unfold executor_map. eexists. reflexivity. Qed.

(** *** Workers that run to their end *)

Lemma all_over {A} (ts : list (task A)) :
  live_count ts = 0%nat -> Forall (fun t => is_live t = false) ts.
Proof.
  unfold live_count. induction ts as [|t rest IH]; cbn [filter]; intros H.
  - constructor.
  - destruct (is_live t) eqn:L; [discriminate|]. constructor; auto.
Qed.

Lemma over_traces {A} env (ts : list (task A)) :
  Forall (fun t => is_live t = false) ts ->
  exists tts, Forall2 (task_trace env) ts tts /\ Forall (fun l => l = []) tts.
Proof.
  induction 1 as [|t rest Ht _ (tts & F2 & F)].
  - exists []. split; constructor.
  - exists ([] :: tts). split; constructor; auto.
    destruct t; try discriminate. reflexivity.
Qed.

Lemma list_sum_cons n ns : list_sum (n :: ns) = (n + list_sum ns)%nat.
Proof. reflexivity. Qed.

Lemma calls_none_over {A} (ns : list nat) (ts : list (task A)) :
  Forall2 calls_at_most ns ts -> list_sum ns = 0%nat ->
  Forall (fun t => is_live t = false) ts.
Proof.
  induction 1 as [|n t ns ts Hn _ IH]; intros Hs; try rewrite list_sum_cons in Hs.
  - constructor.
  - constructor; [|apply IH; lia].
    assert (n = 0%nat) by lia. subst n.
    destruct t; cbn in Hn; [reflexivity|contradiction|contradiction].
Qed.

Lemma advance_trace {A} env (t : task A) tr x t' l :
  advance env t tr = Some (x, t') -> task_trace env t' l -> task_trace env t (x :: l).
Proof.
  destruct t as [r|X ev answer k|line k]; cbn [advance task_trace]; intros E Hl.
  - discriminate.
  - exists tr, l.
    destruct (raises env tr (ev tr)) as [e|] eqn:R; injection E as <- <-.
    + right. exists e. auto.
    + left. auto.
  - injection E as <- <-. exists l. auto.
Qed.

Lemma advance_calls {A} env (t : task A) tr x t' n :
  advance env t tr = Some (x, t') -> calls_at_most n t ->
  exists m, n = S m /\ calls_at_most m t'.
Proof.
  destruct t as [r|X ev answer k|line k]; cbn [advance calls_at_most]; intros E Hn.
  - discriminate.
  - destruct n as [|m]; [contradiction|]. exists m. split; [reflexivity|].
    destruct (raises env tr (ev tr)); injection E as <- <-; apply Hn.
  - destruct n as [|m]; [contradiction|]. exists m. split; [reflexivity|].
    injection E as <- <-. exact Hn.
Qed.

(** With fuel for all their calls the workers all come to their end, and
    what the pool writes is an interleaving of what each of them
    writes. *)
Lemma run_pool_merges {A} env fuel :
  forall (ts : list (task A)) ns tr,
    Forall2 calls_at_most ns ts ->
    list_sum ns <= fuel ->
    exists new tts,
      snd (run_pool env fuel ts tr) = tr ++ new
      /\ Forall2 (task_trace env) ts tts
      /\ merged tts new.
Proof.
  assert (Hstop : forall (ts : list (task A)) tr,
             Forall (fun t => is_live t = false) ts ->
             exists new tts,
               tr = tr ++ new /\ Forall2 (task_trace env) ts tts /\ merged tts new).
  { intros ts tr Hts. destruct (over_traces env ts Hts) as (tts & F2 & F).
    exists [], tts. rewrite app_nil_r. repeat split; auto. now constructor. }
  induction fuel as [|fuel IH]; intros ts ns tr Hns Hfuel.
  - cbn [run_pool snd]. apply Hstop. eapply calls_none_over; [exact Hns|lia].
  - cbn [run_pool]. destruct (live_count ts) as [|n] eqn:L.
    + cbn [snd]. apply Hstop. now apply all_over.
    + destruct (step_live_spec env ts (pick env tr (S n) mod S n) tr)
        as (l1 & t & l2 & x & t' & E & Ea & Es).
      { rewrite L. apply Nat.mod_upper_bound. discriminate. }
      rewrite Es. subst ts.
      apply Forall2_app_inv_r in Hns.
      destruct Hns as (n1 & ns' & Hn1 & Hn' & ->).
      inversion Hn' as [|m t0 n2 l0 Hm Hn2]; subst.
      destruct (advance_calls env t tr x t' m Ea Hm) as (m' & -> & Hm').
      rewrite list_sum_app, list_sum_cons in Hfuel.
      destruct (IH (l1 ++ t' :: l2) (n1 ++ m' :: n2) (tr ++ [x]))
        as (new & tts & En & F2 & Hm2).
      { apply Forall2_app; [exact Hn1|]. constructor; assumption. }
      { rewrite list_sum_app, list_sum_cons. lia. }
      apply Forall2_app_inv_l in F2.
      destruct F2 as (a & b' & Fa & Fb & ->).
      inversion Fb as [|t1 l b0 b Hl Fb2]; subst.
      exists (x :: new), (a ++ (x :: l) :: b).
      rewrite En, <- app_assoc. split; [reflexivity|]. split.
      * apply Forall2_app; [exact Fa|]. constructor; [|exact Fb2].
        eapply advance_trace; eassumption.
      * now constructor.
Qed.

Lemma merged_Permutation ls t : merged ls t -> Permutation t (concat ls).
Proof.
  induction 1 as [ls H|ls1 x l ls2 t _ IH].
  - induction H as [|l ls -> _ IHl]; cbn [concat app]; [constructor|exact IHl].
  - rewrite concat_app in *. cbn [concat] in *.
    rewrite <- app_comm_cons. now apply Permutation_cons_app.
Qed.

Lemma merged_Forall (P : entry -> Prop) ls t :
  merged ls t -> Forall (Forall P) ls -> Forall P t.
Proof.
  intros Hm Hls. apply merged_Permutation in Hm.
  eapply Permutation_Forall; [symmetry; exact Hm|].
  clear Hm. induction Hls as [|l ls Hl _ IH]; cbn [concat]; [constructor|].
  apply Forall_app. auto.
Qed.

Lemma count_cons f x t :
  count f (x :: t) = ((if f x then 1 else 0) + count f t)%nat.
Proof. unfold count. cbn [filter]. destruct (f x); reflexivity. Qed.

Lemma merged_count f ls t :
  merged ls t -> count f t = list_sum (map (count f) ls).
Proof.
  induction 1 as [ls H|ls1 x l ls2 t _ IH].
  - induction H as [|l ls -> _ IHl]; cbn [map]; [reflexivity|].
    rewrite list_sum_cons, <- IHl. reflexivity.
  - rewrite count_cons, IH, !map_app, !list_sum_app. cbn [map].
    rewrite !list_sum_cons, count_cons. lia.
Qed.

Lemma merged_requested ls t :
  merged ls t ->
  Permutation (requested_partitions t) (concat (map requested_partitions ls)).
Proof.
  intros Hm. apply merged_Permutation in Hm.
  unfold requested_partitions at 1.
  etransitivity; [apply Permutation_flat_map, Hm|].
  clear. induction ls as [|l ls IH]; cbn [concat map flat_map]; [constructor|].
  rewrite flat_map_app. apply Permutation_app_head, IH.
Qed.

(* ================================================================= *)
(** ** What a computation appends to the trace *)

Section Emits.

Context {A : Type} (P : entry -> Prop).

Lemma emits_ret (a : A) tr : emits P (ret a) tr.
Proof. exists []. simpl. now rewrite app_nil_r. Qed.

Lemma emits_raise (e : exn) tr : emits P (@raise A e) tr.
Proof. exists []. simpl. now rewrite app_nil_r. Qed.

Lemma emits_call env (ev : event) (answer : trace -> A) tr :
  P (Done ev) -> (forall e, P (Failed ev e)) -> emits P (call env ev answer) tr.
Proof.
  intros Hd Hf. unfold emits, call.
  destruct (raises env tr ev) as [e|]; eexists; split; simpl; eauto.
Qed.

Lemma emits_weaken (Q : entry -> Prop) (m : M A) tr :
  (forall x, Q x -> P x) -> emits Q m tr -> emits P m tr.
Proof.
  intros HQ (t & E & F). exists t. split; [exact E|].
  eapply Forall_impl; eauto.
Qed.

Lemma emits_try (body : M A) (handler : exn -> M A) tr :
  emits P body tr ->
  (forall e tr1, body tr = (Raise e, tr1) -> emits P (handler e) tr1) ->
  emits P (try_except body handler) tr.
Proof.
  intros (t & E & F) Hh. unfold emits, try_except.
  destruct (body tr) as [[a|e] tr1] eqn:Eb; simpl in E; subst tr1.
  - exists t. auto.
  - destruct (Hh e _ eq_refl) as (t2 & E2 & F2).
    exists (t ++ t2). rewrite E2, app_assoc. split; [reflexivity|].
    apply Forall_app; auto.
Qed.

End Emits.

Lemma emits_print (P : entry -> Prop) line tr : P (Done (Print line)) -> emits P (print line) tr.
Proof. intros H. exists [Done (Print line)]. simpl. auto. Qed.

Lemma emits_bind {A B} (P : entry -> Prop) (m : M A) (k : A -> M B) tr :
  emits P m tr ->
  (forall a tr1, m tr = (Return a, tr1) -> emits P (k a) tr1) ->
  emits P (bind m k) tr.
Proof.
  intros (t & E & F) Hk. unfold emits, bind.
  destruct (m tr) as [[a|e] tr1] eqn:Em; simpl in E; subst tr1.
  - destruct (Hk a _ eq_refl) as (t2 & E2 & F2).
    exists (t ++ t2). rewrite E2, app_assoc. split; [reflexivity|].
    apply Forall_app; auto.
  - exists t. auto.
Qed.

Lemma emits_with_cm {A B} (P : entry -> Prop) (enter : M A) (exit : A -> M unit)
    (body : A -> M B) tr :
  emits P enter tr ->
  (forall a tr1, enter tr = (Return a, tr1) -> emits P (body a) tr1) ->
  (forall a tr2, emits P (exit a) tr2) ->
  emits P (with_cm enter exit body) tr.
Proof.
  intros (t & E & F) Hb Hx. unfold emits, with_cm.
  destruct (enter tr) as [[a|e] tr1] eqn:Een; simpl in E; subst tr1.
  - destruct (Hb a _ eq_refl) as (t2 & E2 & F2).
    destruct (body a (tr ++ t)) as [r tr2]. simpl in E2. subst tr2.
    destruct (Hx a ((tr ++ t) ++ t2)) as (t3 & E3 & F3).
    exists (t ++ t2 ++ t3).
    split; [|repeat (apply Forall_app; split); auto].
    destruct (exit a ((tr ++ t) ++ t2)) as [[u|e'] tr3]; simpl in *; subst tr3;
      now rewrite !app_assoc.
  - exists t. auto.
Qed.

Lemma emits_engine_enter (P : entry -> Prop) env tr :
  (forall s, P (Done (EngineEnter s))) -> (forall s e, P (Failed (EngineEnter s) e)) ->
  emits P (engine_enter env) tr.
Proof. intros Hd Hf. unfold engine_enter. apply emits_call; auto. Qed.

(** One step of a proof that a computation emits only [P] entries. *)
Ltac emits_step :=
  match goal with
  | |- emits _ (ret _) _ => apply emits_ret
  | |- emits _ (raise _) _ => apply emits_raise
  | |- emits _ (print _) _ => apply emits_print
  | |- emits _ (call _ _ _) _ => apply emits_call
  | |- emits _ (engine_enter _) _ => apply emits_engine_enter
  | |- emits _ (bind _ _) _ => apply emits_bind; [|intros ? ? _]
  | |- emits _ (try_except _ _) _ => apply emits_try; [|intros ? ? _]
  | |- emits _ (with_cm _ _ _) _ => apply emits_with_cm; [|intros ? ? _|intros ? ?]
  | |- emits _ (executor_map _ _ _) _ => apply executor_map_emits_tasks; intros ?
  | |- emits _ (match ?x with _ => _ end) _ => destruct x
  end.

Ltac emits_auto := repeat emits_step; intros; try reflexivity; try discriminate.

(** One step of a proof about every entry a worker can write. *)
Ltac task_sees_step :=
  match goal with
  | |- True => exact I
  | |- _ /\ _ => split
  | |- task_sees _ _ (try_task (match ?s with _ => _ end) _) _ => destruct s
  | |- task_sees _ _ _ _ =>
      progress cbn [task_sees try_task then_task leave_task with_task ask say]
  | |- forall _, _ => intro
  end.

Ltac worker_sees :=
  unfold insert_partition_with_session_steps, insert_data_partition_steps;
  repeat task_sees_step.

Lemma insert_partition_with_session_steps_emit env sess tt ts p tr :
  task_sees env (fun _ x => is_load_entry x = true)
            (insert_partition_with_session_steps env sess tt ts p) tr.
Proof. worker_sees; reflexivity. Qed.

Lemma executor_map_emits env sess tt ts parts tr :
  emits (fun x => is_load_entry x = true)
        (executor_map env (insert_partition_with_session_steps env sess tt ts) parts) tr.
Proof.
  apply executor_map_emits_tasks. intros.
  apply insert_partition_with_session_steps_emit.
Qed.

(* ================================================================= *)
(** ** Truncate *)

(** The entries of a truncate that went through. *)
Lemma truncate_table_outcomes env target_table target_schema tr :
  let s := fresh_session env tr in
  truncate_table env target_table target_schema tr
  = (Return tt,
     tr ++ [Done (EngineEnter s);
            Done (Execute s ("DELETE FROM " +:+ target_table) None);
            Done (Commit s);
            Done (EngineExit s)])
  \/ exists e t,
       truncate_table env target_table target_schema tr = (Raise e, tr ++ t)
       /\ Forall (fun x => is_insert_entry x = false) t.
Proof.
  intros s. unfold truncate_table, with_database_engine, with_cm, engine_enter, bind, call.
  fold s.
  destruct (raises env tr (EngineEnter s)) as [e|] eqn:E1.
  { right. exists e, [Failed (EngineEnter s) e]. split; [reflexivity|]. repeat constructor. }
  destruct (raises env (tr ++ [Done (EngineEnter s)])
              (Execute s ("DELETE FROM " +:+ target_table) None)) as [e|] eqn:E2.
  { destruct (raises env _ (EngineExit s)) as [e'|];
      right; eexists; eexists; rewrite <- !app_assoc; (split; [reflexivity|]);
      repeat constructor. }
  destruct (raises env _ (Commit s)) as [e|] eqn:E3.
  { destruct (raises env _ (EngineExit s)) as [e'|];
      right; eexists; eexists; rewrite <- !app_assoc; (split; [reflexivity|]);
      repeat constructor. }
  destruct (raises env _ (EngineExit s)) as [e'|].
  - right; eexists; eexists; rewrite <- !app_assoc; (split; [reflexivity|]);
      repeat constructor.
  - left. rewrite <- !app_assoc. reflexivity.
Qed.

(** C7: [truncate_table] runs one [DELETE FROM] inside one engine session
    and commits, but its [target_schema] never reaches the statement:
    with the table [orders] and the schema [sales], the rows deleted are
    those of [orders], not of [sales.orders]. *)
Lemma truncate_table_drops_schema :
  truncate_table (Demo.world "postgresql" Demo.no_failure Demo.orders_columns)
                 "orders" (Some "sales") []
  = (Return tt,
     [Done (EngineEnter 0); Done (Execute 0 "DELETE FROM orders" None);
      Done (Commit 0); Done (EngineExit 0)]).
Proof. reflexivity. Qed.

(* ================================================================= *)
(** ** Insert *)

Lemma py_eq_str_true (v : pyval) (s : string) : py_eq_str v s = true <-> v = VStr s.
Proof.
  destruct v; simpl; try (split; [discriminate | intros H; discriminate H]).
  rewrite String.eqb_eq. split; [intros -> | intros [= ->]]; reflexivity.
Qed.

(** An entry with property [Q] cannot sit among entries that all lack it. *)
Lemma no_such_entry (Q : entry -> bool) (l pre post : list entry) (x : entry) :
  Forall (fun y => Q y = false) l -> l = pre ++ x :: post -> Q x = true -> False.
Proof.
  intros F -> Hx. apply Forall_app in F as [_ F]. inversion F; congruence.
Qed.

(** An entry with property [Q] that follows a block lacking it leaves the
    whole block before itself. *)
Lemma entry_after_block (Q : entry -> bool) (l1 l2 pre post : list entry) (x : entry) :
  Forall (fun y => Q y = false) l1 ->
  l1 ++ l2 = pre ++ x :: post -> Q x = true ->
  exists rest, pre = l1 ++ rest.
Proof.
  revert pre. induction l1 as [|y l1 IH]; intros pre F E Hx.
  - exists pre. reflexivity.
  - inversion F as [|? ? Hy F']; subst.
    destruct pre as [|z pre]; simpl in E.
    + injection E as -> _. congruence.
    + injection E as -> E. destruct (IH pre F' E Hx) as [rest ->].
      exists rest. reflexivity.
Qed.

Lemma load_entry_not_truncate (x : entry) :
  is_load_entry x = true -> is_truncate_entry x = false.
Proof.
  unfold is_load_entry, is_truncate_entry.
  destruct (event_of x); try discriminate; try reflexivity.
  destruct params; [reflexivity | discriminate].
Qed.

(** C9: without a loaded dataframe [db_insert] raises [ValueError] at
    once: the trace is returned as it was received, so nothing has been
    partitioned, truncated or inserted. *)
Theorem db_insert_without_dataframe env target_table target_schema session_arg
    partition_by full_refresh chunk_size tr :
  db_insert env {| dataframe := None |} target_table target_schema session_arg
            partition_by full_refresh chunk_size tr
  = (Raise (ValueError "No DataFrame loaded."), tr).
Proof. reflexivity. Qed.

(** C6: in a full refresh, every entry written for a partition insert has
    before it, in this order, the partitioning call and the complete
    truncate: session acquired, [DELETE FROM] the formatted target
    executed, committed, session released. *)
Theorem db_insert_full_refresh_truncates_first env self target_table target_schema
    session_arg partition_by chunk_size tr new pre x post :
  snd (db_insert env self target_table target_schema session_arg partition_by
                 (VStr "Y") chunk_size tr) = tr ++ new ->
  new = pre ++ x :: post ->
  is_insert_entry x = true ->
  exists df column s rest,
    pre = [Done (PartitionDataframe (Some df) chunk_size column);
           Done (EngineEnter s);
           Done (Execute s ("DELETE FROM " +:+ table_name_formattter target_table target_schema)
                         None);
           Done (Commit s);
           Done (EngineExit s)] ++ rest.
Proof.
  intros Hrun Hsplit Hx. subst new. unfold db_insert in Hrun.
  destruct (dataframe self) as [df|].
  2:{ simpl in Hrun. rewrite <- (app_nil_r tr) in Hrun at 1.
      apply app_inv_head in Hrun. destruct pre; discriminate. }
  set (norm := match partition_by with
               | Some (AList []) => raise (IndexError "list index out of range")
               | Some (AList (first :: _)) => ret (Some (AStr first))
               | other => ret other
               end) in Hrun.
  unfold bind at 1 in Hrun.
  assert (Hnorm : norm tr = (Raise (IndexError "list index out of range"), tr)
                  \/ exists column, norm tr = (Return column, tr)).
  { unfold norm.
    destruct partition_by as [[c|[|c l]]|];
      first [left; reflexivity | right; eexists; reflexivity]. }
  destruct Hnorm as [Hn | [column Hn]]; rewrite Hn in Hrun.
  { simpl in Hrun. rewrite <- (app_nil_r tr) in Hrun at 1.
    apply app_inv_head in Hrun. destruct pre; discriminate. }
  unfold bind at 1, call at 1 in Hrun.
  destruct (raises env tr (PartitionDataframe (Some df) chunk_size column)) as [e|].
  { simpl in Hrun. apply app_inv_head in Hrun.
    exfalso. eapply (no_such_entry is_insert_entry); [|exact Hrun|exact Hx].
    repeat constructor. }
  cbn [py_eq_str] in Hrun. rewrite String.eqb_refl in Hrun.
  unfold bind at 1 in Hrun.
  set (tr1 := tr ++ [Done (PartitionDataframe (Some df) chunk_size column)]) in *.
  destruct (truncate_table_outcomes env (table_name_formattter target_table target_schema)
              None tr1) as [Ht | (e & t & Ht & Ft)]; rewrite Ht in Hrun.
  - match type of Hrun with
    | snd (executor_map _ ?task ?parts ?tr2) = _ =>
        destruct (executor_map_emits env session_arg target_table target_schema parts tr2)
          as (t & Et & _)
    end.
    rewrite Et in Hrun. unfold tr1 in Hrun. rewrite <- !app_assoc in Hrun.
    apply app_inv_head in Hrun.
    exists df, column, (fresh_session env tr1).
    simpl in Hrun.
    eapply (entry_after_block is_insert_entry) with (l2 := t); [|exact Hrun|exact Hx].
    repeat constructor.
  - simpl in Hrun. unfold tr1 in Hrun. rewrite <- app_assoc in Hrun.
    apply app_inv_head in Hrun.
    exfalso. eapply (no_such_entry is_insert_entry); [|exact Hrun|exact Hx].
    constructor; [reflexivity | exact Ft].
Qed.

Lemma db_insert_full_refresh_truncates_first_witness :
  let run := db_insert (Demo.world "postgresql" Demo.rejects_second_chunk Demo.orders_columns)
                       Demo.loaded "orders" (Some "sales") None None (VStr "Y") 2 [] in
  exists df column s rest,
    firstn 6 (snd run)
    = [Done (PartitionDataframe (Some df) 2 column);
       Done (EngineEnter s);
       Done (Execute s ("DELETE FROM " +:+ table_name_formattter "orders" (Some "sales")) None);
       Done (Commit s);
       Done (EngineExit s)] ++ rest.
Proof.
  intros run.
  apply (db_insert_full_refresh_truncates_first
           (Demo.world "postgresql" Demo.rejects_second_chunk Demo.orders_columns)
           Demo.loaded "orders" (Some "sales") None None 2 []
           (snd run) (firstn 6 (snd run))
           (Done (InsertGen Demo.second_chunk "sales.orders" None))
           (skipn 7 (snd run)));
    reflexivity.
Defined.

(** C10: unless [full_refresh] is the string [Y] itself, [db_insert]
    writes no entry of a truncate: no statement without bound rows is
    executed and nothing is committed, whatever else the value is (the
    boolean [True], the string [y], the default [N]). *)
Theorem db_insert_truncates_only_on_Y env self target_table target_schema session_arg
    partition_by full_refresh chunk_size tr :
  full_refresh <> VStr "Y" ->
  exists new,
    snd (db_insert env self target_table target_schema session_arg partition_by
                   full_refresh chunk_size tr) = tr ++ new
    /\ Forall (fun x => is_truncate_entry x = false) new.
Proof.
  intros Hv.
  change (emits (fun x => is_truncate_entry x = false)
                (db_insert env self target_table target_schema session_arg partition_by
                           full_refresh chunk_size) tr).
  unfold db_insert.
  destruct (py_eq_str full_refresh "Y") eqn:E.
  { apply py_eq_str_true in E. contradiction. }
  destruct (dataframe self) as [df|]; [|apply emits_raise].
  apply emits_bind.
  { destruct partition_by as [[c|[|c l]]|];
      first [apply emits_ret | apply emits_raise]. }
  intros column tr1 _. apply emits_bind.
  { apply emits_call; intros; reflexivity. }
  intros parts tr2 _. apply emits_bind; [apply emits_ret|].
  intros _ tr3 _.
  eapply emits_weaken; [|apply executor_map_emits].
  apply load_entry_not_truncate.
Qed.

Lemma db_insert_truncates_only_on_Y_witness :
  exists new,
    snd (db_insert (Demo.world "postgresql" Demo.no_failure Demo.orders_columns)
                   Demo.loaded "orders" (Some "sales") None None (VBool true) 2 [])
      = [] ++ new
    /\ Forall (fun x => is_truncate_entry x = false) new.
Proof.
  apply (db_insert_truncates_only_on_Y
           (Demo.world "postgresql" Demo.no_failure Demo.orders_columns)
           Demo.loaded "orders" (Some "sales") None None (VBool true) 2 []).
  discriminate.
Defined.

(* ================================================================= *)
(** ** Failures of partition inserts *)

(** The three ways [insert_data_partition] can go; it returns [None] in
    each of them. *)
Lemma insert_data_partition_outcomes env p s target_table target_schema source_table tr :
  let tbl := table_name_formattter target_table target_schema in
  let rows := Some (iter_rows_named p) in
  let go := insert_data_partition env p s target_table target_schema source_table tr in
  (exists e,
     go = (Return tt,
           tr ++ [Failed (InsertGen p tbl source_table) e;
                  Done (Print ("An error occurred: " +:+ exn_str e))]))
  \/ (exists sql e,
        go = (Return tt,
              tr ++ [Done (InsertGen p tbl source_table);
                     Failed (Execute s sql rows) e;
                     Done (Print ("An error occurred: " +:+ exn_str e))]))
  \/ (exists sql,
        go = (Return tt,
              tr ++ [Done (InsertGen p tbl source_table); Done (Execute s sql rows)])).
Proof.
  intros tbl rows go. unfold go, insert_data_partition, try_except, bind, call, print.
  fold tbl.
  destruct (raises env tr (InsertGen p tbl source_table)) as [e|].
  { left. exists e. rewrite <- app_assoc. reflexivity. }
  right.
  match goal with
  | |- context [raises env ?t (Execute s ?q ?r)] =>
      destruct (raises env t (Execute s q r)) as [e|]; [left; exists q, e | right; exists q]
  end; rewrite <- !app_assoc; reflexivity.
Qed.

Lemma insert_data_partition_returns env p s target_table target_schema source_table tr :
  fst (insert_data_partition env p s target_table target_schema source_table tr) = Return tt.
Proof.
  destruct (insert_data_partition_outcomes env p s target_table target_schema source_table tr)
    as [[e H] | [(sql & e & H) | [sql H]]]; now rewrite H.
Qed.

Lemma insert_partition_with_session_returns env sess target_table target_schema p tr :
  fst (insert_partition_with_session env sess target_table target_schema p tr) = Return tt.
Proof.
  unfold insert_partition_with_session, try_except.
  destruct sess as [s|].
  - pose proof (insert_data_partition_returns env p s target_table target_schema None tr) as H.
    destruct (insert_data_partition env p s target_table target_schema None tr) as [[u|e] t];
      simpl in H; [destruct u; reflexivity | discriminate].
  - unfold with_database_engine, with_cm, engine_enter, call.
    destruct (raises env tr (EngineEnter (fresh_session env tr))); [reflexivity|].
    match goal with
    | |- context [insert_data_partition env p ?s0 target_table target_schema None ?t0] =>
        pose proof (insert_data_partition_returns env p s0 target_table target_schema None t0) as H;
        destruct (insert_data_partition env p s0 target_table target_schema None t0) as [[u|e] t]
    end; simpl in H; [|discriminate].
    destruct (raises env t (EngineExit (fresh_session env tr))); destruct u; reflexivity.
Qed.

(** [insert_data_partition], taken call by call and run on its own, does
    what [insert_data_partition] does. *)
Lemma insert_data_partition_steps_alone env p s target_table target_schema source_table tr :
  run_task env (insert_data_partition_steps env p s target_table target_schema source_table) tr
  = insert_data_partition env p s target_table target_schema source_table tr.
Proof.
  unfold insert_data_partition_steps, insert_data_partition, try_except, bind, print.
  cbn [try_task then_task ask say run_task]. unfold call.
  repeat (match goal with
          | |- context [raises env ?t ?e] => destruct (raises env t e)
          end;
          cbn [try_task then_task ask say run_task]; unfold call);
    reflexivity.
Qed.

(** The worker of [db_insert], taken call by call, is
    [insert_partition_with_session]: run on its own it does what that
    function does. *)
Lemma insert_partition_with_session_steps_alone env sess target_table target_schema p tr :
  run_task env (insert_partition_with_session_steps env sess target_table target_schema p) tr
  = insert_partition_with_session env sess target_table target_schema p tr.
Proof.
  unfold insert_partition_with_session_steps, insert_data_partition_steps,
    insert_partition_with_session, insert_data_partition, with_database_engine, with_cm,
    engine_enter, try_except, bind, print.
  destruct sess as [s|];
    cbn [try_task then_task leave_task with_task ask say run_task]; unfold call;
    repeat (match goal with
            | |- context [raises env ?t ?e] => destruct (raises env t e)
            end;
            cbn [try_task then_task leave_task with_task ask say run_task]; unfold call);
    reflexivity.
Qed.

(** What a worker writes when it runs on its own is one of its runs. *)
Lemma run_task_trace {A} env (t : task A) :
  forall tr, exists l, snd (run_task env t tr) = tr ++ l /\ task_trace env t l.
Proof.
  induction t as [r|X ev answer k IH|line k IH]; intros tr; cbn [run_task task_trace].
  - exists []. now rewrite app_nil_r.
  - unfold call. destruct (raises env tr (ev tr)) as [e|] eqn:R.
    + destruct (IH (Raise e) (tr ++ [Failed (ev tr) e])) as (l & E & Hl).
      exists (Failed (ev tr) e :: l). rewrite E, <- app_assoc. split; [reflexivity|].
      exists tr, l. right. exists e. auto.
    + destruct (IH (Return (answer tr)) (tr ++ [Done (ev tr)])) as (l & E & Hl).
      exists (Done (ev tr) :: l). rewrite E, <- app_assoc. split; [reflexivity|].
      exists tr, l. left. auto.
  - destruct (IH (tr ++ [Done (Print line)])) as (l & E & Hl).
    exists (Done (Print line) :: l). rewrite E, <- app_assoc. split; [reflexivity|].
    exists l. auto.
Qed.

Lemma insert_partition_with_session_steps_calls env sess target_table target_schema p :
  calls_at_most worker_calls
                (insert_partition_with_session_steps env sess target_table target_schema p).
Proof.
  unfold insert_partition_with_session_steps, insert_data_partition_steps, worker_calls.
  destruct sess as [s|];
    cbn [try_task then_task leave_task with_task ask say calls_at_most];
    repeat (intros [?|?];
            cbn [try_task then_task leave_task with_task ask say calls_at_most]);
    exact I.
Qed.

(** The pool of [db_insert] runs the worker of every partition to its
    end, and what it writes interleaves what the workers write. *)
Lemma executor_map_runs_every_worker env sess target_table target_schema parts tr :
  exists load tts,
    snd (executor_map env
           (insert_partition_with_session_steps env sess target_table target_schema)
           parts tr) = tr ++ load
    /\ Forall2 (fun p l =>
                  task_trace env
                    (insert_partition_with_session_steps env sess target_table
                                                         target_schema p) l)
               parts tts
    /\ merged tts load.
Proof.
  unfold executor_map. cbn [snd].
  destruct (run_pool_merges env (worker_calls * List.length parts)
              (map (insert_partition_with_session_steps env sess target_table target_schema)
                   parts)
              (repeat worker_calls (List.length parts)) tr)
    as (load & tts & E & F2 & Hm).
  - clear. induction parts as [|p rest IH]; cbn [map repeat List.length]; constructor.
    + apply insert_partition_with_session_steps_calls.
    + exact IH.
  - clear. induction parts as [|p rest IH]; cbn [repeat List.length].
    + cbn. lia.
    + rewrite list_sum_cons. lia.
  - exists load, tts. repeat split; [exact E| |exact Hm].
    clear - F2. revert tts F2.
    induction parts as [|p rest IH]; intros tts F2; inversion F2; subst; constructor; auto.
Qed.

(** The workers do overlap: under a scheduler that lets them take turns,
    the two workers of a load in two partitions have both entered the
    engine before either asks for its statement, and both statements are
    executed before either worker leaves. *)
Lemma db_insert_workers_overlap :
  let first_chunk :=
    {| columns := ["id"; "status"];
       data := [[VInt 1; VStr "open"]; [VInt 2; VStr "paid"]] |} in
  let sql := "INSERT INTO sales.orders VALUES (:id, :status)" in
  snd (db_insert (world_taking_turns Demo.no_failure) Demo.loaded "orders" (Some "sales")
                 None None (VStr "N") 2 [])
  = [Done (PartitionDataframe (Some Demo.orders) 2 None);
     Done (EngineEnter 1);
     Done (EngineEnter 2);
     Done (InsertGen Demo.second_chunk "sales.orders" None);
     Done (InsertGen first_chunk "sales.orders" None);
     Done (Execute 1 sql (Some (iter_rows_named Demo.second_chunk)));
     Done (Execute 2 sql (Some (iter_rows_named first_chunk)));
     Done (EngineExit 1);
     Done (EngineExit 2)].
Proof. reflexivity. Qed.

(** Where [db_insert] can end when a dataframe is loaded: it raises before
    any partition insert was attempted, or it hands the partitions to the
    pool. *)
Lemma db_insert_reaches_pool env df target_table target_schema sess col v chunk_size tr :
  let column := option_map AStr col in
  let go := db_insert env {| dataframe := Some df |} target_table target_schema sess
                      column v chunk_size tr in
  (exists e new, go = (Raise e, tr ++ new)
                 /\ Forall (fun x => is_insert_entry x = false) new)
  \/ (exists tr2,
        go = executor_map env
               (insert_partition_with_session_steps env sess target_table target_schema)
               (partitions env tr (Some df) chunk_size column) tr2
        /\ exists before, tr2 = tr ++ before /\ requested_partitions before = []).
Proof.
  intros column go.
  assert (Hgo : go = db_insert env {| dataframe := Some df |} target_table target_schema sess
                               column v chunk_size tr) by reflexivity.
  clearbody go. unfold db_insert in Hgo. cbn [dataframe] in Hgo.
  assert (Hn : (match column with
                | Some (AList []) => raise (IndexError "list index out of range")
                | Some (AList (first :: _)) => ret (Some (AStr first))
                | other => ret other
                end) tr = (Return column, tr)).
  { unfold column. destruct col; reflexivity. }
  unfold bind at 1 in Hgo. rewrite Hn in Hgo.
  unfold bind at 1, call at 1 in Hgo.
  destruct (raises env tr (PartitionDataframe (Some df) chunk_size column)) as [e|].
  { left. exists e, [Failed (PartitionDataframe (Some df) chunk_size column) e].
    split; [exact Hgo | repeat constructor]. }
  unfold bind at 1 in Hgo.
  destruct (py_eq_str v "Y").
  - destruct (truncate_table_outcomes env (table_name_formattter target_table target_schema)
                None (tr ++ [Done (PartitionDataframe (Some df) chunk_size column)]))
      as [Ht | (e & t & Ht & Ft)]; rewrite Ht in Hgo.
    + right. eexists. split; [exact Hgo|]. rewrite <- app_assoc. eexists.
      split; reflexivity.
    + left. exists e, (Done (PartitionDataframe (Some df) chunk_size column) :: t).
      split; [now rewrite Hgo, <- app_assoc | constructor; [reflexivity | exact Ft]].
  - right. eexists. split; [exact Hgo|]. eexists. split; reflexivity.
Qed.

(** C2 (amended): an insert that raises is caught where it happens: the
    exception is printed and [insert_data_partition] returns [None], and
    so does the worker around it.  [db_insert] returns [None] once the
    partitions have reached the pool (it raises only when no insert has
    been attempted yet), so the caller gets no record of the failure;
    every partition handed to the pool is run all the same: what
    [db_insert] has written when it returns ends with an interleaving of
    one run of the worker, from its first call to its last, for each
    partition. *)
Theorem partition_failures_printed_not_reported env df target_table target_schema sess
    col v chunk_size tr :
  let column := option_map AStr col in
  let parts := partitions env tr (Some df) chunk_size column in
  let run := db_insert env {| dataframe := Some df |} target_table target_schema sess
                       column v chunk_size tr in
  (forall p s tr0,
      exists t,
        insert_data_partition env p s target_table target_schema None tr0 = (Return tt, tr0 ++ t)
        /\ forall ev e, In (Failed ev e) t ->
             exists t', t = t' ++ [Done (Print ("An error occurred: " +:+ exn_str e))])
  /\ (forall p tr0,
        fst (insert_partition_with_session env sess target_table target_schema p tr0)
        = Return tt)
  /\ (fst run = Return tt
      \/ exists e new, fst run = Raise e /\ snd run = tr ++ new
                       /\ Forall (fun x => is_insert_entry x = false) new)
  /\ (fst run = Return tt ->
      exists before load tts,
        snd run = tr ++ before ++ load
        /\ Forall2 (fun p l =>
                      task_trace env
                        (insert_partition_with_session_steps env sess target_table
                                                             target_schema p) l)
                   parts tts
        /\ merged tts load).
Proof.
  intros column parts run. repeat split.
  - intros p s tr0.
    destruct (insert_data_partition_outcomes env p s target_table target_schema None tr0)
      as [[e H] | [(sql & e & H) | [sql H]]]; rewrite H; eexists; (split; [reflexivity|]);
      intros ev e' Hin; simpl in Hin.
    + destruct Hin as [[= <- <-] | [[=] | []]]. eexists [_]. reflexivity.
    + destruct Hin as [[=] | [[= <- <-] | [[=] | []]]].
      eexists [_; _]. reflexivity.
    + destruct Hin as [[=] | [[=] | []]].
  - intros p tr0. apply insert_partition_with_session_returns.
  - destruct (db_insert_reaches_pool env df target_table target_schema sess col v chunk_size tr)
      as [(e & new & H & F) | (tr2 & H & _)]; fold column in H; fold run in H.
    + right. exists e, new. rewrite H. auto.
    + left. rewrite H. reflexivity.
  - intros Hret.
    destruct (db_insert_reaches_pool env df target_table target_schema sess col v chunk_size tr)
      as [(e & new & H & F) | (tr2 & H & before & -> & _)]; fold column in H; fold run in H.
    + rewrite H in Hret. discriminate.
    + fold parts in H.
      destruct (executor_map_runs_every_worker env sess target_table target_schema parts
                  (tr ++ before)) as (load & tts & E & F2 & Hm).
      exists before, load, tts. rewrite H, E, <- app_assoc. auto.
Qed.

Lemma partition_failures_printed_not_reported_witness :
  let run := db_insert (Demo.world "postgresql" Demo.rejects_second_chunk Demo.orders_columns)
                       {| dataframe := Some Demo.orders |} "orders" (Some "sales") (Some 9)
                       (option_map AStr None) (VStr "N") 2 [] in
  fst run = Return tt
  \/ exists e new, fst run = Raise e /\ snd run = [] ++ new
                   /\ Forall (fun x => is_insert_entry x = false) new.
Proof.
  refine (proj1 (proj2 (proj2
    (partition_failures_printed_not_reported
       (Demo.world "postgresql" Demo.rejects_second_chunk Demo.orders_columns)
       Demo.orders "orders" (Some "sales") (Some 9) None (VStr "N") 2 [])))).
Defined.

(** C2, as stated, fails: the engine rejects the second of two partitions,
    the rejection is in the trace, and the caller of [db_insert] receives
    plain [None]. *)
Lemma partition_failure_not_surfaced :
  let run := db_insert (Demo.world "postgresql" Demo.rejects_second_chunk Demo.orders_columns)
                       Demo.loaded "orders" (Some "sales") (Some 9) None (VStr "N") 2 [] in
  ~ (forall sql rows e,
        In (Failed (Execute 9 sql rows) e) (snd run) -> fst run <> Return tt).
Proof.
  intros run H.
  apply (H "INSERT INTO sales.orders VALUES (:id, :status)"
           (Some [[("id", VInt 3); ("status", VStr "sent")]])
           (OtherError "IntegrityError" "duplicate key")).
  - vm_compute. auto 10.
  - reflexivity.
Qed.

(* ================================================================= *)
(** ** Merge *)

(** Closes the side conditions left by [emits_step] when the property
    speaks about [MergeGen] entries only. *)
Ltac merge_gen_side :=
  intros;
  match goal with
  | H : event_of _ = MergeGen _ |- _ =>
      simpl in H; first [discriminate H | injection H as <-; split; reflexivity]
  | |- _ => idtac
  end.

Lemma create_temp_table_no_merge_gen (P : MergeArgs -> Prop) env s table_name source_schema
    new_table_name target_schema tr :
  emits (fun x => forall a, event_of x = MergeGen a -> P a)
        (create_temp_table env s table_name source_schema new_table_name target_schema) tr.
Proof.
  unfold create_temp_table, with_session.
  repeat emits_step; merge_gen_side.
Qed.

Lemma db_insert_no_merge_gen (P : MergeArgs -> Prop) env self target_table target_schema
    sess partition_by v chunk_size tr :
  emits (fun x => forall a, event_of x = MergeGen a -> P a)
        (db_insert env self target_table target_schema sess partition_by v chunk_size) tr.
Proof.
  unfold db_insert.
  destruct (dataframe self) as [df|]; [|apply emits_raise].
  apply emits_bind.
  { destruct partition_by as [[c|[|c l]]|];
      first [apply emits_ret | apply emits_raise]. }
  intros column tr1 _. apply emits_bind; [apply emits_call; merge_gen_side|].
  intros parts tr2 _. apply emits_bind.
  { destruct (py_eq_str v "Y"); [|apply emits_ret].
    unfold truncate_table, with_database_engine. repeat emits_step; merge_gen_side. }
  intros _ tr3 _.
  eapply emits_weaken; [|apply executor_map_emits].
  intros x Hx a Ha. unfold is_load_entry in Hx. rewrite Ha in Hx. discriminate.
Qed.



(* ================================================================= *)
(** ** Source extraction *)

Lemma truthy_sql_str (q : option string) :
  truthy_sql (option_map SqlStr q) = Str.truthy_opt q.
Proof. destruct q; reflexivity. Qed.

(** C5 (amended): [copy_source_db] asks for at least one of
    [source_table_name] and [source_query].  With neither (both [None] or
    empty) it raises [ValueError] right after the engine was created, and
    nothing is read.  With one of them, or with both, it does not fail on
    that account, and a query that was passed is used whatever the table
    name is: with no query the whole table is read; a query that names no
    file is read as it is; a [str] query that names a file is replaced
    by the contents of the file when its name ends in [.sql], and is
    read as it is otherwise; a [bytes] query that names a file raises
    [TypeError] before anything is read. *)
Theorem copy_source_db_needs_a_source env self source_db_url source_schema_name chunk_size tr :
  never_raises env ->
  let uri := engine_url env tr source_db_url in
  let tr1 := tr ++ [Done (CreateEngine source_db_url)] in
  let reads (h : trace) (sql : str_or_bytes) :=
    (Return {| dataframe := Some (database_rows env h sql uri chunk_size) |},
     h ++ [Done (ReadDatabaseUri sql uri chunk_size)]) in
  let run source_table_name source_query :=
    copy_source_db env self source_db_url source_table_name source_query
                   source_schema_name chunk_size tr in
  (forall source_table_name source_query,
      Str.truthy_opt source_table_name || truthy_sql source_query = false ->
      run source_table_name source_query
      = (Raise (ValueError "Either source_table_name or source_query must be provided."),
         tr1))
  /\ (forall source_table_name,
        Str.truthy_opt source_table_name = true ->
        run source_table_name None
        = reads tr1
                (SqlStr ("SELECT * FROM "
                         +:+ fstr_opt (table_name_formattter_untyped source_table_name
                                                                     source_schema_name))))
  /\ (forall source_table_name query,
        Str.truthy_opt source_table_name || truthy_sql (Some query) = true ->
        let tr2 := tr1 ++ [Done (IsFile query)] in
        (isfile env tr1 query = false ->
         run source_table_name (Some query) = reads tr2 query)
        /\ (forall path,
              query = SqlStr path -> isfile env tr1 query = true ->
              Str.endswith ".sql" path = true ->
              run source_table_name (Some query)
              = reads (tr2 ++ [Done (ReadFile path)]) (SqlStr (file_contents env tr2 path)))
        /\ (forall path,
              query = SqlStr path -> isfile env tr1 query = true ->
              Str.endswith ".sql" path = false ->
              run source_table_name (Some query) = reads tr2 query)
        /\ (forall b,
              query = SqlBytes b -> isfile env tr1 query = true ->
              run source_table_name (Some query)
              = (Raise (TypeError
                          "endswith first arg must be bytes or a tuple of bytes, not str"),
                 tr2))).
Proof.
  intros Hnr uri tr1 reads run. split; [|split].
  - intros t q Hf. unfold run, copy_source_db, bind, call. rewrite Hnr, Hf. reflexivity.
  - intros t Ht. unfold run, copy_source_db, bind, call. rewrite Hnr.
    cbn [truthy_sql]. rewrite Ht. cbn [orb negb ret]. rewrite Hnr. reflexivity.
  - intros t q Ht tr2.
    assert (E : run t (Some q)
                = bind (if isfile env tr1 q
                        then match q with
                             | SqlStr path =>
                                 if Str.endswith ".sql" path
                                 then bind (call env (ReadFile path)
                                                 (fun h => file_contents env h path))
                                           (fun contents => ret (SqlStr contents))
                                 else ret q
                             | SqlBytes _ =>
                                 raise (TypeError
                                   "endswith first arg must be bytes or a tuple of bytes, not str")
                             end
                        else ret q)
                       (fun sql_query =>
                          bind (call env (ReadDatabaseUri sql_query uri chunk_size)
                                     (fun h => database_rows env h sql_query uri chunk_size))
                               (fun df => ret {| dataframe := Some df |})) tr2).
    { unfold run, copy_source_db. unfold bind at 1, call at 1. rewrite Hnr, Ht.
      cbn [negb]. unfold get_sql_query. unfold bind at 1 2, call at 1. rewrite Hnr.
      reflexivity. }
    rewrite E. clear E. repeat split.
    + intros ->. unfold ret at 1, bind, call. rewrite Hnr. reflexivity.
    + intros path -> -> ->. unfold bind at 1 2, call at 1. rewrite Hnr.
      unfold ret at 1, bind, call. rewrite Hnr. reflexivity.
    + intros path -> -> ->. unfold ret at 1, bind, call. rewrite Hnr. reflexivity.
    + intros b -> ->. reflexivity.
Qed.

Lemma copy_source_db_needs_a_source_witness :
  copy_source_db (Demo.world "postgresql" Demo.no_failure Demo.orders_columns)
                 {| dataframe := None |} "sqlite://" None None (Some "sales") None []
  = (Raise (ValueError "Either source_table_name or source_query must be provided."),
     [] ++ [Done (CreateEngine "sqlite://")]).
Proof.
  refine (proj1 (copy_source_db_needs_a_source
                   (Demo.world "postgresql" Demo.no_failure Demo.orders_columns)
                   {| dataframe := None |} "sqlite://" (Some "sales") None [] _) None None _);
    [intros tr ev; reflexivity | reflexivity].
Defined.

(** C5, as stated, fails: with a table name and a query both passed, the
    call does not raise. *)
Lemma both_sources_accepted :
  ~ (exists e,
        fst (copy_source_db (Demo.world "postgresql" Demo.no_failure Demo.orders_columns)
                            {| dataframe := None |} "sqlite://" (Some "orders")
                            (Some (SqlStr "SELECT id FROM orders")) None None [])
        = Raise e).
Proof. intros [e H]. vm_compute in H. discriminate. Qed.

(* ================================================================= *)
(** ** Staging-table DDL *)

(** The dialects whose entry in [create_temp_table_headers] is empty. *)
Lemma empty_header_dialects (d : string) :
  dict_get create_temp_table_headers d = Some EmptyString
  <-> In d ["db2"; "teradata"; "hana"; "snowflake"; "bigquery"].
Proof.
  unfold create_temp_table_headers. cbn [dict_get].
  repeat match goal with
         | |- context [String.eqb ?k d] =>
             let E := fresh "E" in
             destruct (String.eqb k d) eqn:E;
             [apply String.eqb_eq in E; subst d;
              split; [intros; first [discriminate | simpl; tauto]
                     | intros; first [reflexivity
                                     | exfalso; simpl in *; intuition discriminate]]
             | apply String.eqb_neq in E]
         end.
  split; [discriminate|]. simpl. intuition congruence.
Qed.

(** C1 (amended): for a dialect whose header entry is empty,
    [create_temp_table] raises nothing of its own: when its collaborators
    answer, it returns the compiled DDL rewritten with the empty header,
    that is, with the text [CREATE TABLE ] deleted where it stood. *)
Theorem create_temp_table_empty_header env s table_name source_schema new_table_name
    target_schema tr :
  never_raises env ->
  dict_get create_temp_table_headers (dialect_name env s) = Some EmptyString ->
  (exists tr0 t,
      create_temp_table env s table_name source_schema new_table_name target_schema tr
      = (Return (rewritten "" (compiled_ddl env tr0 s t)),
         tr0 ++ [Done (CompileCreateTable s t); Done (SessionExit s)]))
  /\ (forall rest,
        Str.replace "CREATE TABLE " "" ("CREATE TABLE " +:+ rest)
        = Str.replace "CREATE TABLE " "" rest).
Proof.
  intros Hnr Hd. split.
  - unfold create_temp_table, with_session, with_cm, bind, call.
    rewrite !Hnr, Hd. cbn [temp_ddl ret]. rewrite Hnr.
    eexists; eexists. apply f_equal2; [reflexivity|].
    rewrite <- app_assoc. reflexivity.
  - intros rest. apply (replace_head "C"%char "REATE TABLE " "" rest).
Qed.

Lemma create_temp_table_empty_header_witness :
  exists tr0 t,
    create_temp_table (Demo.world "db2" Demo.no_failure Demo.orders_columns) 5 "orders" None
                      (Some "_source_orders_abcd") None []
    = (Return (rewritten "" (compiled_ddl (Demo.world "db2" Demo.no_failure Demo.orders_columns)
                                          tr0 5 t)),
       tr0 ++ [Done (CompileCreateTable 5 t); Done (SessionExit 5)]).
Proof.
  refine (proj1 (create_temp_table_empty_header
                   (Demo.world "db2" Demo.no_failure Demo.orders_columns) 5 "orders" None
                   (Some "_source_orders_abcd") None [] _ _)).
  - intros tr ev. reflexivity.
  - reflexivity.
Defined.

(** C1, as stated, fails: for [db2] the call returns a DDL text and
    raises nothing. *)
Lemma empty_header_dialect_returns_ddl :
  ~ (exists e,
        fst (create_temp_table (Demo.world "db2" Demo.no_failure Demo.orders_columns) 5
                               "orders" None (Some "_source_orders_abcd") None [])
        = Raise e).
Proof. intros [e H]. vm_compute in H. discriminate. Qed.

(* ================================================================= *)
(** ** Runs in which no collaborator raises *)

Lemma truncate_table_returns env target_table target_schema tr :
  never_raises env ->
  let s := fresh_session env tr in
  truncate_table env target_table target_schema tr
  = (Return tt,
     tr ++ [Done (EngineEnter s);
            Done (Execute s ("DELETE FROM " +:+ target_table) None);
            Done (Commit s);
            Done (EngineExit s)]).
Proof.
  intros Hnr s.
  unfold truncate_table, with_database_engine, with_cm, engine_enter, bind, call.
  rewrite !Hnr, <- !app_assoc. reflexivity.
Qed.

Lemma db_insert_returns env df target_table target_schema sess col v chunk_size tr :
  never_raises env ->
  exists t,
    db_insert env {| dataframe := Some df |} target_table target_schema sess
              (option_map AStr col) v chunk_size tr = (Return tt, t).
Proof.
  intros Hnr. unfold db_insert. cbn [dataframe].
  destruct col as [c|]; cbn [option_map];
    unfold bind at 1, ret at 1; unfold bind at 1, call at 1; rewrite Hnr;
    unfold bind at 1;
    (destruct (py_eq_str v "Y");
     [rewrite (truncate_table_returns env _ None _ Hnr) | unfold ret at 1];
     apply executor_map_returns).
Qed.

Lemma snoc_four {X} (l : list X) (a b c d : X) :
  (((l ++ [a]) ++ [b]) ++ [c]) ++ [d] = l ++ [a; b; c; d].
Proof. now rewrite <- !app_assoc. Qed.

(** When no collaborator raises and the dialect has a header entry,
    [db_merge] does ask for the merge statement, executes it and commits. *)
Lemma db_merge_requests_merge env df target_table target_schema match_condition
    constraint_columns col chunk_size tr :
  never_raises env ->
  let s := fresh_session env tr in
  dict_get create_temp_table_headers (dialect_name env s) <> None ->
  exists a sql t,
    db_merge env {| dataframe := Some df |} target_table target_schema match_condition
             constraint_columns (option_map AStr col) chunk_size tr
    = (Return tt,
       t ++ [Done (MergeGen a); Done (Execute s sql None); Done (Commit s);
             Done (EngineExit s)]).
Proof.
  intros Hnr s Hd.
  unfold db_merge, with_database_engine, with_cm, engine_enter. fold s.
  unfold call at 1. rewrite Hnr.
  unfold bind at 1, call at 1. rewrite Hnr.
  destruct (table_column_info env _ s target_table target_schema) as [auto_columns pk].
  unfold bind at 1, call at 1. rewrite Hnr.
  unfold bind at 1, call at 1. rewrite Hnr.
  unfold bind at 1, generate_temp_table_name, bind at 1, call at 1. rewrite Hnr.
  unfold ret at 1.
  unfold bind at 1, create_temp_table, with_session, with_cm, call at 1. rewrite Hnr.
  unfold bind at 1, call at 1. rewrite Hnr.
  unfold bind at 1, call at 1. rewrite Hnr.
  unfold bind at 1, call at 1. rewrite Hnr.
  destruct (dict_get create_temp_table_headers (dialect_name env s)) as [h|]; [|congruence].
  cbn [temp_ddl]. unfold ret at 1, call at 1. rewrite Hnr.
  unfold bind at 1, call at 1. rewrite Hnr.
  unfold bind at 1, print at 1.
  unfold bind at 1.
  match goal with
  | |- context [db_insert env ?self ?tt ?ts ?ss ?pb ?v ?cs ?t0] =>
      destruct (db_insert_returns env df tt ts ss col v cs t0 Hnr) as [t9 H9]; rewrite H9
  end.
  unfold upsert_data_partition, bind, call. rewrite !Hnr.
  eexists; eexists; eexists. apply f_equal2; [reflexivity|].
  apply snoc_four.
Qed.

(* ================================================================= *)
(** ** More about the DDL rewrite *)

Lemma has_char_append (c : ascii) (a b : string) :
  has_char c (a +:+ b) = has_char c a || has_char c b.
Proof.
  induction a as [|x a IH]; cbn [append has_char]; [reflexivity|].
  now rewrite IH, orb_assoc.
Qed.

(** Replacing a one-character text by nothing works character by
    character. *)
Lemma strip_cons (c x : ascii) (s : string) :
  Str.replace (String c "") "" (String x s)
  = if Ascii.eqb c x then Str.replace (String c "") "" s
    else String x (Str.replace (String c "") "" s).
Proof.
  unfold Str.replace. cbn [Str.replace_scan Str.startswith String.length Nat.sub].
  destruct (Ascii.eqb c x); cbn [andb append]; reflexivity.
Qed.

Lemma strip_removes (c : ascii) (s : string) :
  has_char c (Str.replace (String c "") "" s) = false.
Proof.
  induction s as [|x s IH]; [reflexivity|].
  rewrite strip_cons. destruct (Ascii.eqb c x) eqn:E; [exact IH|].
  cbn [has_char]. now rewrite E, IH.
Qed.

Lemma strip_keeps_absent (d c : ascii) (s : string) :
  has_char d s = false -> has_char d (Str.replace (String c "") "" s) = false.
Proof.
  induction s as [|x s IH]; intros H; [reflexivity|].
  cbn [has_char] in H. apply orb_false_iff in H as [Hx Hs].
  rewrite strip_cons. destruct (Ascii.eqb c x); [auto|].
  cbn [has_char]. now rewrite Hx, IH.
Qed.

Lemma strip_absent (c : ascii) (s : string) :
  has_char c s = false -> Str.replace (String c "") "" s = s.
Proof.
  induction s as [|x s IH]; intros H; [reflexivity|].
  cbn [has_char] in H. apply orb_false_iff in H as [Hx Hs].
  now rewrite strip_cons, Hx, IH.
Qed.

Lemma strip_append (c : ascii) (a b : string) :
  Str.replace (String c "") "" (a +:+ b)
  = Str.replace (String c "") "" a +:+ Str.replace (String c "") "" b.
Proof.
  induction a as [|x a IH]; [reflexivity|].
  cbn [append]. rewrite !strip_cons, IH.
  destruct (Ascii.eqb c x); reflexivity.
Qed.

Lemma replace_scan_keeps_absent (d : ascii) (old new : string) :
  has_char d new = false ->
  forall s skip, has_char d s = false ->
                 has_char d (Str.replace_scan old new skip s) = false.
Proof.
  intros Hn. induction s as [|x s IH]; intros skip H; [reflexivity|].
  cbn [has_char] in H. apply orb_false_iff in H as [Hx Hs].
  cbn [Str.replace_scan]. destruct skip; [|auto].
  destruct (Str.startswith old (String x s)).
  - rewrite has_char_append, Hn. cbn [orb]. auto.
  - cbn [has_char]. rewrite Hx. cbn [orb]. auto.
Qed.

Lemma sub_scan_keeps_absent (d : ascii) :
  forall s skip, has_char d s = false -> has_char d (Re.sub_scan skip s) = false.
Proof.
  induction s as [|x s IH]; intros skip H; [reflexivity|].
  cbn [has_char] in H. apply orb_false_iff in H as [Hx Hs].
  cbn [Re.sub_scan]. destruct skip; [|auto].
  destruct (Re.match_identity (String x s)); [auto|].
  cbn [has_char]. rewrite Hx. cbn [orb]. auto.
Qed.

(** No header of the table holds a quote, a bracket, or the letter a
    match of the identity pattern would start with. *)
Lemma header_characters (d h : string) :
  dict_get create_temp_table_headers d = Some h ->
  has_char "034"%char h = false /\ has_char "["%char h = false
  /\ has_char "]"%char h = false /\ has_char "I"%char h = false.
Proof.
  unfold create_temp_table_headers. cbn [dict_get].
  repeat match goal with
         | |- context [String.eqb ?k d] =>
             destruct (String.eqb k d);
             [intros [= <-]; repeat split; reflexivity|]
         end.
  discriminate.
Qed.

(** X12: whatever the compiler produced, the DDL rendered with a header
    of the table holds no double quote and no square bracket. *)
Theorem rendered_ddl_has_no_quoting (d h compiled : string) :
  dict_get create_temp_table_headers d = Some h ->
  has_char "034"%char (rewritten h compiled) = false
  /\ has_char "["%char (rewritten h compiled) = false
  /\ has_char "]"%char (rewritten h compiled) = false.
Proof.
  intros Hd. destruct (header_characters d h Hd) as (Hq & Hl & Hr & _).
  unfold rewritten, Re.sub_identity, double_quote.
  repeat split; apply sub_scan_keeps_absent.
  - do 2 apply strip_keeps_absent.
    apply replace_scan_keeps_absent; [exact Hq | apply strip_removes].
  - apply strip_removes.
  - apply strip_keeps_absent, strip_removes.
Qed.

Lemma rendered_ddl_has_no_quoting_witness :
  let compiled := Demo.render_table "mssql"
                    {| t_name := "orders";
                       t_columns := [{| c_name := "id"; c_type := "INTEGER";
                                        c_primary_key := true |}];
                       t_schema := Some "sales" |} in
  has_char "034"%char (rewritten "CREATE TABLE ##" compiled) = false
  /\ has_char "["%char (rewritten "CREATE TABLE ##" compiled) = false
  /\ has_char "]"%char (rewritten "CREATE TABLE ##" compiled) = false.
Proof.
  intros compiled.
  apply (rendered_ddl_has_no_quoting "mssql" "CREATE TABLE ##" compiled).
  reflexivity.
Defined.

Lemma after_prefix_none (p s : string) :
  Str.startswith p s = false -> Str.after_prefix p s = None.
Proof.
  revert s. induction p as [|a p IH]; intros s H; [discriminate|].
  destruct s as [|b s]; [reflexivity|].
  cbn [Str.startswith] in H. cbn [Str.after_prefix].
  destruct (Ascii.eqb a b); [apply IH; exact H | reflexivity].
Qed.

Lemma replace_absent (c : ascii) (old new s : string) :
  Str.contains (String c old) s = false -> Str.replace (String c old) new s = s.
Proof.
  unfold Str.replace. induction s as [|x s IH]; intros H; [reflexivity|].
  cbn [Str.contains] in H. apply orb_false_iff in H as [Hh Ht].
  cbn [Str.replace_scan]. rewrite Hh, (IH Ht). reflexivity.
Qed.

Lemma sub_identity_absent (s : string) :
  Str.contains "IDENTITY" s = false -> Re.sub_identity s = s.
Proof.
  induction s as [|x s IH]; intros H; [reflexivity|].
  cbn [Str.contains] in H. apply orb_false_iff in H as [Hh Ht].
  rewrite sub_identity_copy, (IH Ht); [reflexivity|].
  unfold Re.match_identity. now rewrite (after_prefix_none _ _ Hh).
Qed.

(** X13: a compiled text with no double quote, no bracket, no
    [CREATE TABLE ] and no [IDENTITY] in it is rendered as it is,
    whatever the header. *)
Theorem rewrite_leaves_plain_text (header compiled : string) :
  has_char "034"%char compiled = false ->
  has_char "["%char compiled = false ->
  has_char "]"%char compiled = false ->
  Str.contains "CREATE TABLE " compiled = false ->
  Str.contains "IDENTITY" compiled = false ->
  temp_ddl (Some header) compiled = Return compiled.
Proof.
  intros Hq Hl Hr Hc Hi. cbn [temp_ddl]. unfold double_quote.
  rewrite (strip_absent _ _ Hq), (replace_absent _ _ _ _ Hc),
    (strip_absent _ _ Hr), (strip_absent _ _ Hl), (sub_identity_absent _ Hi).
  reflexivity.
Qed.

Lemma rewrite_leaves_plain_text_witness :
  temp_ddl (Some "CREATE TEMP TABLE ") "CREATE VIEW v AS SELECT id FROM orders"
  = Return "CREATE VIEW v AS SELECT id FROM orders".
Proof.
  apply (rewrite_leaves_plain_text "CREATE TEMP TABLE "
           "CREATE VIEW v AS SELECT id FROM orders"); reflexivity.
Defined.

Lemma replace_after_prefix (c : ascii) (old new pre s : string) :
  has_char c pre = false ->
  Str.replace (String c old) new (pre +:+ s) = pre +:+ Str.replace (String c old) new s.
Proof.
  unfold Str.replace. induction pre as [|x pre IH]; intros H; [reflexivity|].
  cbn [has_char] in H. apply orb_false_iff in H as [Hx Hp].
  cbn [append Str.replace_scan Str.startswith]. rewrite Hx. cbn [andb].
  now rewrite (IH Hp).
Qed.

Lemma no_match_without_I (pre suffix : string) :
  has_char "I"%char pre = false -> Re.no_match_within pre suffix = true.
Proof.
  induction pre as [|x pre IH]; intros H; [reflexivity|].
  cbn [has_char] in H. apply orb_false_iff in H as [Hx Hp].
  cbn [Re.no_match_within]. unfold Re.match_identity.
  cbn [append Str.after_prefix]. rewrite Hx. auto.
Qed.

(** X14: when the compiled text reaches its [CREATE TABLE ] after a
    prefix free of quotes, brackets and the letters [C] and [I], the
    rendered DDL keeps the prefix, carries the dialect's header in place
    of the standard one, and goes on with the rendering of the rest; the
    header itself is not scanned again. *)
Theorem rendered_ddl_carries_header (d h pre rest : string) :
  dict_get create_temp_table_headers d = Some h ->
  has_char "034"%char pre = false ->
  has_char "["%char pre = false ->
  has_char "]"%char pre = false ->
  has_char "C"%char pre = false ->
  has_char "I"%char pre = false ->
  rewritten h (pre +:+ "CREATE TABLE " +:+ rest) = pre +:+ h +:+ rewritten h rest.
Proof.
  intros Hd Pq Pl Pr Pc Pi.
  destruct (header_characters d h Hd) as (Hq & Hl & Hr & Hi).
  unfold rewritten, double_quote.
  rewrite !strip_append, (strip_absent _ _ Pq).
  rewrite (strip_absent "034"%char "CREATE TABLE " eq_refl).
  rewrite (replace_after_prefix _ _ _ _ _ Pc).
  rewrite (replace_head "C"%char "REATE TABLE " h).
  rewrite !strip_append.
  rewrite (strip_absent "]"%char pre Pr), (strip_absent "]"%char h Hr).
  rewrite (strip_absent "["%char pre Pl), (strip_absent "["%char h Hl).
  rewrite <- append_assoc.
  rewrite sub_identity_prefix.
  - now rewrite append_assoc.
  - apply no_match_without_I. rewrite has_char_append, Pi, Hi. reflexivity.
Qed.

Lemma rendered_ddl_carries_header_witness :
  rewritten "CREATE TABLE ##" (Demo.newline +:+ "CREATE TABLE " +:+ "t ([id] INT IDENTITY(1,1))")
  = Demo.newline +:+ "CREATE TABLE ##" +:+ rewritten "CREATE TABLE ##" "t ([id] INT IDENTITY(1,1))".
Proof.
  apply (rendered_ddl_carries_header "mssql" "CREATE TABLE ##" Demo.newline
           "t ([id] INT IDENTITY(1,1))"); reflexivity.
Defined.

(* ================================================================= *)
(** ** Sessions entered and left *)

Section Appends.

Variable R : trace -> Prop.
Hypothesis R_nil : R [].
Hypothesis R_app : forall a b, R a -> R b -> R (a ++ b).

Lemma appends_ret {A} (a : A) tr : appends R (ret a) tr.
Proof. exists []. simpl. now rewrite app_nil_r. Qed.

Lemma appends_raise {A} (e : exn) tr : appends R (@raise A e) tr.
Proof. exists []. simpl. now rewrite app_nil_r. Qed.

Lemma appends_call {A} env (ev : event) (answer : trace -> A) tr :
  R [Done ev] -> (forall e, R [Failed ev e]) -> appends R (call env ev answer) tr.
Proof.
  intros Hd Hf. unfold appends, call.
  destruct (raises env tr ev) as [e|]; eexists; split; simpl; eauto.
Qed.

Lemma appends_print line tr : R [Done (Print line)] -> appends R (print line) tr.
Proof. intros H. exists [Done (Print line)]. simpl. auto. Qed.

Lemma appends_bind {A B} (m : M A) (k : A -> M B) tr :
  appends R m tr ->
  (forall a tr1, m tr = (Return a, tr1) -> appends R (k a) tr1) ->
  appends R (bind m k) tr.
Proof.
  intros (t & E & F) Hk. unfold appends, bind.
  destruct (m tr) as [[a|e] tr1] eqn:Em; simpl in E; subst tr1.
  - destruct (Hk a _ eq_refl) as (t2 & E2 & F2).
    exists (t ++ t2). rewrite E2, app_assoc. auto.
  - exists t. auto.
Qed.

Lemma appends_try {A} (body : M A) (handler : exn -> M A) tr :
  appends R body tr ->
  (forall e tr1, body tr = (Raise e, tr1) -> appends R (handler e) tr1) ->
  appends R (try_except body handler) tr.
Proof.
  intros (t & E & F) Hh. unfold appends, try_except.
  destruct (body tr) as [[a|e] tr1] eqn:Eb; simpl in E; subst tr1.
  - exists t. auto.
  - destruct (Hh e _ eq_refl) as (t2 & E2 & F2).
    exists (t ++ t2). rewrite E2, app_assoc. auto.
Qed.

Lemma appends_with_cm {A B} (enter : M A) (exit : A -> M unit) (body : A -> M B) tr :
  appends R enter tr ->
  (forall a tr1, enter tr = (Return a, tr1) -> appends R (body a) tr1) ->
  (forall a tr2, appends R (exit a) tr2) ->
  appends R (with_cm enter exit body) tr.
Proof.
  intros (t & E & F) Hb Hx. unfold appends, with_cm.
  destruct (enter tr) as [[a|e] tr1] eqn:Een; simpl in E; subst tr1.
  - destruct (Hb a _ eq_refl) as (t2 & E2 & F2).
    destruct (body a (tr ++ t)) as [r tr2]. simpl in E2. subst tr2.
    destruct (Hx a ((tr ++ t) ++ t2)) as (t3 & E3 & F3).
    exists (t ++ t2 ++ t3). split; [|auto].
    destruct (exit a ((tr ++ t) ++ t2)) as [[u|e'] tr3]; simpl in *; subst tr3;
      now rewrite !app_assoc.
  - exists t. auto.
Qed.

End Appends.

(** As many entries with [f] as with [g]. *)
Lemma count_app (f : entry -> bool) (a b : trace) :
  count f (a ++ b) = (count f a + count f b)%nat.
Proof. unfold count. now rewrite filter_app, length_app. Qed.

Lemma balanced_nil (f g : entry -> bool) : count f [] = count g [].
Proof. reflexivity. Qed.

Lemma balanced_app (f g : entry -> bool) (a b : trace) :
  count f a = count g a -> count f b = count g b -> count f (a ++ b) = count g (a ++ b).
Proof. intros Ha Hb. rewrite !count_app. lia. Qed.

(** An engine session handed out by [with_database_engine] is left again. *)
Lemma with_database_engine_balanced {B} env (body : session -> M B) tr :
  (forall s tr1, appends (fun t => count engine_opened t = count engine_closed t) (body s) tr1) ->
  appends (fun t => count engine_opened t = count engine_closed t)
          (with_database_engine env body) tr.
Proof.
  intros Hb. unfold appends, with_database_engine, with_cm, engine_enter, call.
  destruct (raises env tr (EngineEnter (fresh_session env tr))) as [e|].
  { eexists. split; [reflexivity | reflexivity]. }
  destruct (Hb (fresh_session env tr) (tr ++ [Done (EngineEnter (fresh_session env tr))]))
    as (t & E & F).
  destruct (body _ _) as [r tr2]. simpl in E. subst tr2.
  destruct (raises env _ (EngineExit (fresh_session env tr))) as [e|];
    (eexists (_ :: t ++ [_]); split;
     [simpl; rewrite <- !app_assoc; reflexivity
     | change (?x :: t ++ ?y) with ([x] ++ t ++ y);
       rewrite !count_app, F; cbn; lia]).
Qed.

(** A [with session:] block that was entered is left again. *)
Lemma with_session_balanced {B} env s (body : M B) tr :
  (forall tr1, appends (fun t => count session_opened t = count session_closed t) body tr1) ->
  appends (fun t => count session_opened t = count session_closed t)
          (with_session env s body) tr.
Proof.
  intros Hb. unfold appends, with_session, with_cm, call.
  destruct (raises env tr (SessionEnter s)) as [e|].
  { eexists. split; [reflexivity | reflexivity]. }
  destruct (Hb (tr ++ [Done (SessionEnter s)])) as (t & E & F).
  destruct (body _) as [r tr2]. simpl in E. subst tr2.
  destruct (raises env _ (SessionExit s)) as [e|];
    (eexists (_ :: t ++ [_]); split;
     [simpl; rewrite <- !app_assoc; reflexivity
     | change (?x :: t ++ ?y) with ([x] ++ t ++ y);
       rewrite !count_app, F; cbn; lia]).
Qed.

(** Takes a run of a worker apart, call by call. *)
Ltac task_trace_cases H :=
  unfold insert_partition_with_session_steps, insert_data_partition_steps in H;
  cbn [task_trace try_task then_task leave_task with_task ask say] in H;
  repeat match goal with
         | H' : exists _, _ |- _ => destruct H' as [? H']
         | H' : _ /\ _ |- _ => destruct H' as [? H']
         | H' : _ \/ _ |- _ => destruct H' as [H' | H']
         | H' : task_trace _ _ _ |- _ =>
             progress cbn [task_trace try_task then_task leave_task with_task ask say] in H'
         end;
  subst.

(** A worker that was handed an engine session leaves it, in each of its
    runs. *)
Lemma insert_partition_with_session_steps_balanced (f g : entry -> bool) env sess
    target_table target_schema p l :
  (f = engine_opened /\ g = engine_closed) \/ (f = session_opened /\ g = session_closed) ->
  task_trace env (insert_partition_with_session_steps env sess target_table target_schema p) l ->
  count f l = count g l.
Proof.
  intros [[-> ->] | [-> ->]] H; destruct sess as [s|]; task_trace_cases H; reflexivity.
Qed.

Lemma executor_map_balanced (f g : entry -> bool) env sess target_table target_schema
    parts tr :
  (f = engine_opened /\ g = engine_closed) \/ (f = session_opened /\ g = session_closed) ->
  appends (fun t => count f t = count g t)
          (executor_map env
             (insert_partition_with_session_steps env sess target_table target_schema)
             parts) tr.
Proof.
  intros Hfg.
  destruct (executor_map_runs_every_worker env sess target_table target_schema parts tr)
    as (load & tts & E & F2 & Hm).
  exists load. split; [exact E|].
  rewrite !(merged_count _ tts load Hm). f_equal.
  clear - F2 Hfg. induction F2 as [|p l parts tts Hl _ IH]; cbn [map]; [reflexivity|].
  f_equal; [|exact IH].
  eapply insert_partition_with_session_steps_balanced; eassumption.
Qed.

(** One step of a proof that a computation keeps entries with [f] and
    entries with [g] in balance. *)
Ltac balance_step :=
  match goal with
  | |- appends _ (with_database_engine _ _) _ =>
      first [apply with_database_engine_balanced; intros ? ?
            | unfold with_database_engine]
  | |- appends _ (with_session _ _ _) _ =>
      first [apply with_session_balanced; intros ?
            | unfold with_session]
  | |- appends (fun t => count ?f t = count ?g t) ?m _ =>
      let nil := constr:(balanced_nil f g) in
      let app := constr:(balanced_app f g) in
      lazymatch m with
      | ret _ => apply (appends_ret _ nil)
      | raise _ => apply (appends_raise _ nil)
      | print _ => apply appends_print; reflexivity
      | call _ _ _ => apply appends_call; intros; reflexivity
      | engine_enter _ => unfold engine_enter; apply appends_call; intros; reflexivity
      | bind _ _ => apply (appends_bind _ app); [|intros ? ? _]
      | try_except _ _ => apply (appends_try _ app); [|intros ? ? _]
      | with_cm _ _ _ => apply (appends_with_cm _ app); [|intros ? ? _|intros ? ?]
      | executor_map _ _ _ => apply executor_map_balanced; auto
      | match ?x with _ => _ end => destruct x
      end
  end.

Lemma db_insert_balanced (f g : entry -> bool) env self target_table target_schema sess
    partition_by v chunk_size tr :
  (f = engine_opened /\ g = engine_closed) \/ (f = session_opened /\ g = session_closed) ->
  appends (fun t => count f t = count g t)
          (db_insert env self target_table target_schema sess partition_by v chunk_size) tr.
Proof.
  intros [[-> ->] | [-> ->]];
    unfold db_insert, truncate_table;
    repeat balance_step.
Qed.

(** X8: whatever fails on the way, [db_insert] leaves every engine
    session it was handed: among the entries it writes there are as many
    sessions handed out by the engine as attempts to leave one. *)
Theorem db_insert_leaves_its_sessions env self target_table target_schema sess
    partition_by full_refresh chunk_size tr :
  exists new,
    snd (db_insert env self target_table target_schema sess partition_by
                   full_refresh chunk_size tr) = tr ++ new
    /\ count engine_opened new = count engine_closed new.
Proof. apply (db_insert_balanced engine_opened engine_closed); auto. Qed.

Lemma create_temp_table_balanced (f g : entry -> bool) env s table_name source_schema
    new_table_name target_schema tr :
  (f = engine_opened /\ g = engine_closed) \/ (f = session_opened /\ g = session_closed) ->
  appends (fun t => count f t = count g t)
          (create_temp_table env s table_name source_schema new_table_name target_schema) tr.
Proof.
  intros [[-> ->] | [-> ->]]; unfold create_temp_table; repeat balance_step.
Qed.

Lemma db_merge_balanced (f g : entry -> bool) env self target_table target_schema
    match_condition constraint_columns partition_by chunk_size tr :
  (f = engine_opened /\ g = engine_closed) \/ (f = session_opened /\ g = session_closed) ->
  appends (fun t => count f t = count g t)
          (db_merge env self target_table target_schema match_condition constraint_columns
                    partition_by chunk_size) tr.
Proof.
  intros H. unfold db_merge.
  assert (Hbody : forall s tr1,
    appends (fun t => count f t = count g t)
      (info <- call env (GetTableColumnInfo s target_table target_schema)
                    (fun tr => table_column_info env tr s target_table target_schema) ;;
       let '(auto_columns, primary_key_list) := info in
       partition <- call env (PartitionDataframe (dataframe self) chunk_size partition_by)
                         (fun tr => partitions env tr (dataframe self) chunk_size partition_by) ;;
       let constraint_list :=
         match constraint_columns with None => auto_columns | Some c => c end in
       let match_list :=
         match match_condition with None => primary_key_list | Some m => m end in
       dbms <- call env GetDbmsDialect (dbms_dialect env) ;;
       gen_temp_table_name <- generate_temp_table_name env target_table ;;
       temp_table <- create_temp_table env s target_table target_schema
                                       (Some gen_temp_table_name) None ;;
       call env (Execute s temp_table None) (fun _ => tt) ;;;
       let gen_temp_table_name :=
         if String.eqb dbms "mssql" then "##" +:+ gen_temp_table_name
         else gen_temp_table_name in
       print ("Begin " +:+ gen_temp_table_name +:+ " insert") ;;;
       db_insert env self gen_temp_table_name None (Some s) partition_by (VStr "N") chunk_size ;;;
       upsert_data_partition env self s (table_name_formattter target_table target_schema)
                             dbms match_list constraint_list gen_temp_table_name) tr1).
  { intros s tr1.
    pose proof (balanced_app f g) as Happ.
    apply (appends_bind _ Happ);
      [destruct H as [[-> ->] | [-> ->]]; apply appends_call; intros; reflexivity|].
    intros [auto_columns pk] tr2 _.
    apply (appends_bind _ Happ);
      [destruct H as [[-> ->] | [-> ->]]; apply appends_call; intros; reflexivity|].
    intros parts tr3 _.
    apply (appends_bind _ Happ);
      [destruct H as [[-> ->] | [-> ->]]; apply appends_call; intros; reflexivity|].
    intros dbms tr4 _.
    apply (appends_bind _ Happ).
    { unfold generate_temp_table_name.
      destruct H as [[-> ->] | [-> ->]]; repeat balance_step. }
    intros name tr5 _.
    apply (appends_bind _ Happ); [apply create_temp_table_balanced; exact H|].
    intros ddl tr6 _.
    apply (appends_bind _ Happ);
      [destruct H as [[-> ->] | [-> ->]]; apply appends_call; intros; reflexivity|].
    intros _ tr7 _.
    apply (appends_bind _ Happ);
      [destruct H as [[-> ->] | [-> ->]]; apply appends_print; reflexivity|].
    intros _ tr8 _.
    apply (appends_bind _ Happ); [apply db_insert_balanced; exact H|].
    intros _ tr9 _.
    unfold upsert_data_partition.
    destruct H as [[-> ->] | [-> ->]]; repeat balance_step. }
  destruct H as [[-> ->] | [-> ->]].
  - apply with_database_engine_balanced. exact Hbody.
  - unfold with_database_engine.
    apply (appends_with_cm _ (balanced_app _ _)).
    + unfold engine_enter. apply appends_call; intros; reflexivity.
    + intros s tr1 _. apply Hbody.
    + intros s tr1. apply appends_call; intros; reflexivity.
Qed.

(** X9: whatever fails on the way, [db_merge] leaves the engine session
    it works in and the [with session:] block of the DDL rendering:
    among the entries it writes, sessions handed out by the engine and
    attempts to leave one are equal in number, and so are session blocks
    entered and attempts to leave one. *)
Theorem db_merge_leaves_its_sessions env self target_table target_schema match_condition
    constraint_columns partition_by chunk_size tr :
  exists new,
    snd (db_merge env self target_table target_schema match_condition constraint_columns
                  partition_by chunk_size tr) = tr ++ new
    /\ count engine_opened new = count engine_closed new
    /\ count session_opened new = count session_closed new.
Proof.
  destruct (db_merge_balanced engine_opened engine_closed env self target_table target_schema
              match_condition constraint_columns partition_by chunk_size tr)
    as (t1 & E1 & B1); [auto|].
  destruct (db_merge_balanced session_opened session_closed env self target_table
              target_schema match_condition constraint_columns partition_by chunk_size tr)
    as (t2 & E2 & B2); [auto|].
  rewrite E1 in E2. apply app_inv_head in E2. subst t2.
  exists t1. auto.
Qed.

(* ================================================================= *)
(** ** Runs that cannot succeed *)

Lemma bind_raises_right {A B} (m : M A) (k : A -> M B) tr :
  (forall a tr1, m tr = (Return a, tr1) -> exists e, fst (k a tr1) = Raise e) ->
  exists e, fst (bind m k tr) = Raise e.
Proof.
  intros H. unfold bind. destruct (m tr) as [[a|e] tr1]; [apply (H a tr1 eq_refl)|].
  exists e. reflexivity.
Qed.

Lemma bind_raises_left {A B} (m : M A) (k : A -> M B) tr :
  (exists e, fst (m tr) = Raise e) -> exists e, fst (bind m k tr) = Raise e.
Proof.
  intros [e H]. unfold bind. destruct (m tr) as [[a|e'] tr1]; [discriminate|].
  exists e'. reflexivity.
Qed.

Lemma with_cm_raises {A B} (enter : M A) (exit : A -> M unit) (body : A -> M B) tr :
  (forall a tr1, enter tr = (Return a, tr1) -> exists e, fst (body a tr1) = Raise e) ->
  exists e, fst (with_cm enter exit body tr) = Raise e.
Proof.
  intros H. unfold with_cm. destruct (enter tr) as [[a|e] tr1]; [|exists e; reflexivity].
  destruct (H a tr1 eq_refl) as [e He].
  destruct (body a tr1) as [r tr2]. simpl in He. subst r.
  destruct (exit a tr2) as [[u|e'] tr3]; eexists; reflexivity.
Qed.

Lemma create_temp_table_raises env s table_name source_schema new_table_name target_schema tr :
  dict_get create_temp_table_headers (dialect_name env s) = None ->
  exists e,
    fst (create_temp_table env s table_name source_schema new_table_name target_schema tr)
    = Raise e.
Proof.
  intros Hd. unfold create_temp_table, with_session.
  apply with_cm_raises. intros _ tr1 _.
  apply bind_raises_right. intros cols tr2 _.
  apply bind_raises_right. intros pk tr3 _.
  apply bind_raises_right. intros compiled tr4 _.
  rewrite Hd. cbn [temp_ddl]. eexists. reflexivity.
Qed.

(** X1: for a dialect that has no entry in the header table,
    [create_temp_table] never returns a DDL: it raises.  When its
    collaborators answer, what it raises is the [TypeError] of
    [str.replace], after the table was compiled, and the session block is
    left. *)
Theorem create_temp_table_unknown_dialect env s table_name source_schema new_table_name
    target_schema tr :
  dict_get create_temp_table_headers (dialect_name env s) = None ->
  (exists e,
      fst (create_temp_table env s table_name source_schema new_table_name target_schema tr)
      = Raise e)
  /\ (never_raises env ->
      exists tr0 t,
        create_temp_table env s table_name source_schema new_table_name target_schema tr
        = (Raise (TypeError "replace() argument 2 must be str, not None"),
           tr0 ++ [Done (CompileCreateTable s t); Done (SessionExit s)])).
Proof.
  intros Hd. split; [now apply create_temp_table_raises|].
  intros Hnr. unfold create_temp_table, with_session, with_cm, bind, call.
  rewrite !Hnr, Hd. cbn [temp_ddl raise]. rewrite Hnr.
  eexists; eexists. apply f_equal2; [reflexivity|].
  rewrite <- app_assoc. reflexivity.
Qed.

Lemma create_temp_table_unknown_dialect_witness :
  exists e,
    fst (create_temp_table (Demo.world "duckdb" Demo.no_failure Demo.orders_columns) 5
                           "orders" None None None [])
    = Raise e.
Proof.
  refine (proj1 (create_temp_table_unknown_dialect
                   (Demo.world "duckdb" Demo.no_failure Demo.orders_columns) 5
                   "orders" None None None [] _)).
  reflexivity.
Defined.

Lemma engine_enter_returns env tr s tr1 :
  engine_enter env tr = (Return s, tr1) ->
  s = fresh_session env tr /\ tr1 = tr ++ [Done (EngineEnter (fresh_session env tr))].
Proof.
  unfold engine_enter, call.
  destruct (raises env tr (EngineEnter (fresh_session env tr))); [discriminate|].
  intros [= <- <-]. auto.
Qed.

Lemma call_returns {A} env ev (answer : trace -> A) tr a tr1 :
  call env ev answer tr = (Return a, tr1) -> a = answer tr /\ tr1 = tr ++ [Done ev].
Proof.
  unfold call. destruct (raises env tr ev); [discriminate|].
  intros [= <- <-]. auto.
Qed.

(** X2: when the session's dialect has no entry in the header table,
    [db_merge] raises, and it does so before any statement is executed:
    the entries it writes hold no execution, no request for an INSERT
    statement and no request for the merge statement. *)
Theorem db_merge_unknown_dialect env self target_table target_schema match_condition
    constraint_columns partition_by chunk_size tr :
  dict_get create_temp_table_headers (dialect_name env (fresh_session env tr)) = None ->
  (exists e,
      fst (db_merge env self target_table target_schema match_condition constraint_columns
                    partition_by chunk_size tr) = Raise e)
  /\ exists new,
       snd (db_merge env self target_table target_schema match_condition constraint_columns
                     partition_by chunk_size tr) = tr ++ new
       /\ Forall (fun x => is_execute x = false /\ is_insert_entry x = false
                           /\ is_merge_gen x = false) new.
Proof.
  intros Hd. split.
  - unfold db_merge, with_database_engine. apply with_cm_raises.
    intros s tr1 Hs. apply engine_enter_returns in Hs as [-> ->].
    apply bind_raises_right. intros [auto_columns pk] tr2 _.
    apply bind_raises_right. intros parts tr3 _.
    apply bind_raises_right. intros dbms tr4 _.
    apply bind_raises_right. intros name tr5 _.
    apply bind_raises_left. now apply create_temp_table_raises.
  - change (emits (fun x => is_execute x = false /\ is_insert_entry x = false
                            /\ is_merge_gen x = false)
                  (db_merge env self target_table target_schema match_condition
                            constraint_columns partition_by chunk_size) tr).
    unfold db_merge, with_database_engine. apply emits_with_cm.
    + apply emits_engine_enter; intros; repeat split.
    + intros s tr1 Hs. apply engine_enter_returns in Hs as [-> ->].
      apply emits_bind; [apply emits_call; intros; repeat split|].
      intros [auto_columns pk] tr2 _.
      apply emits_bind; [apply emits_call; intros; repeat split|]. intros parts tr3 _.
      apply emits_bind; [apply emits_call; intros; repeat split|]. intros dbms tr4 _.
      apply emits_bind.
      { unfold generate_temp_table_name. repeat emits_step; intros; repeat split. }
      intros name tr5 _.
      apply emits_bind.
      { unfold create_temp_table, with_session. repeat emits_step; intros; repeat split. }
      intros ddl tr6 Hddl.
      destruct (create_temp_table_raises env (fresh_session env tr) target_table
                  target_schema (Some name) None tr5 Hd) as [e He].
      rewrite Hddl in He. discriminate.
    + intros s tr2. apply emits_call; intros; repeat split.
Qed.

Lemma db_merge_unknown_dialect_witness :
  exists e,
    fst (db_merge (Demo.world "duckdb" Demo.no_failure Demo.orders_columns) Demo.loaded
                  "orders" (Some "sales") None None None 2 []) = Raise e.
Proof.
  refine (proj1 (db_merge_unknown_dialect
                   (Demo.world "duckdb" Demo.no_failure Demo.orders_columns) Demo.loaded
                   "orders" (Some "sales") None None None 2 [] _)).
  reflexivity.
Defined.




(* ================================================================= *)
(** ** The staging table of a merge *)

(** Closes the side conditions of [emits_step] for properties of the
    arguments of [InsertGen] and [MergeGen] entries. *)
Ltac generator_side :=
  intros; try split; intros;
  try match goal with
      | H : event_of _ = _ |- _ =>
          simpl in H;
          first [discriminate H | injection H; intros; subst; split; reflexivity]
      end.

Lemma db_insert_targets (Q : MergeArgs -> Prop) env self target_table target_schema sess
    partition_by v chunk_size tr :
  emits (fun y => (forall p tn src, event_of y = InsertGen p tn src ->
                     tn = table_name_formattter target_table target_schema /\ src = None)
                  /\ (forall a, event_of y = MergeGen a -> Q a))
        (db_insert env self target_table target_schema sess partition_by v chunk_size) tr.
Proof.
  unfold db_insert, truncate_table, with_database_engine.
  repeat emits_step; try worker_sees; generator_side.
Qed.

Lemma create_temp_table_no_generator (P : entry -> Prop) env s table_name source_schema
    new_table_name target_schema tr :
  (forall y, (forall p tn src, event_of y <> InsertGen p tn src) ->
             (forall a, event_of y <> MergeGen a) -> P y) ->
  emits P (create_temp_table env s table_name source_schema new_table_name target_schema) tr.
Proof.
  intros HP. unfold create_temp_table, with_session.
  repeat emits_step; intros; apply HP; intros; discriminate.
Qed.

Lemma generate_temp_table_name_returns env table_name tr name tr1 :
  generate_temp_table_name env table_name tr = (Return name, tr1) ->
  name = "_source_" +:+ table_name +:+ "_" +:+ random_suffix env tr
  /\ tr1 = tr ++ [Done RandomChoices].
Proof.
  unfold generate_temp_table_name, bind, call, ret.
  destruct (raises env tr RandomChoices); [discriminate|].
  intros [= <- <-]. auto.
Qed.

(** X4: in a run of [db_merge] there is one staging table: every INSERT
    statement requested is for the name [staging_table_name] gives (the
    generated [_source_<table>_<suffix>], with [##] before it for SQL
    Server) and has no source table, and the merge statement requested
    reads from that same name and writes to the formatted target. *)
Theorem db_merge_uses_one_staging_table env self target_table target_schema match_condition
    constraint_columns partition_by chunk_size tr new x :
  snd (db_merge env self target_table target_schema match_condition constraint_columns
                partition_by chunk_size tr) = tr ++ new ->
  In x new ->
  let staged := staging_table_name env self target_table target_schema partition_by
                                   chunk_size tr in
  (forall p tn src, event_of x = InsertGen p tn src -> tn = staged /\ src = None)
  /\ (forall a, event_of x = MergeGen a ->
        m_source_table_name a = staged
        /\ m_table_name a = table_name_formattter target_table target_schema).
Proof.
  intros Hrun Hin staged.
  set (P := fun y : entry =>
              (forall p tn src, event_of y = InsertGen p tn src -> tn = staged /\ src = None)
              /\ (forall a, event_of y = MergeGen a ->
                    m_source_table_name a = staged
                    /\ m_table_name a = table_name_formattter target_table target_schema)).
  enough (E : emits P (db_merge env self target_table target_schema match_condition
                                constraint_columns partition_by chunk_size) tr).
  { destruct E as (t & Et & Ft). rewrite Et in Hrun. apply app_inv_head in Hrun. subst t.
    rewrite Forall_forall in Ft. exact (Ft x Hin). }
  assert (Hplain : forall y, (forall p tn src, event_of y <> InsertGen p tn src) ->
                             (forall a, event_of y <> MergeGen a) -> P y).
  { intros y H1 H2. split.
    - intros p tn src Hy. destruct (H1 p tn src Hy).
    - intros a Hy. destruct (H2 a Hy). }
  unfold db_merge, with_database_engine.
  apply emits_with_cm.
  - apply emits_engine_enter; intros; apply Hplain; intros; discriminate.
  - intros s1 tr1 Hs. apply engine_enter_returns in Hs as [-> ->].
    apply emits_bind; [apply emits_call; intros; apply Hplain; intros; discriminate|].
    intros [auto_columns pk] tr2 H2. apply call_returns in H2 as [_ ->].
    apply emits_bind; [apply emits_call; intros; apply Hplain; intros; discriminate|].
    intros parts tr3 H3. apply call_returns in H3 as [_ ->].
    apply emits_bind; [apply emits_call; intros; apply Hplain; intros; discriminate|].
    intros dbms tr4 H4. apply call_returns in H4 as [-> ->].
    apply emits_bind.
    { unfold generate_temp_table_name.
      repeat emits_step; intros; apply Hplain; intros; discriminate. }
    intros name tr5 H5. apply generate_temp_table_name_returns in H5 as [-> ->].
    apply emits_bind; [apply create_temp_table_no_generator; exact Hplain|].
    intros ddl tr6 _.
    apply emits_bind; [apply emits_call; intros; apply Hplain; intros; discriminate|].
    intros _ tr7 _.
    apply emits_bind; [apply emits_print; apply Hplain; intros; discriminate|].
    intros _ tr8 _.
    apply emits_bind.
    { eapply emits_weaken; [|apply (db_insert_targets (fun _ => False))].
      intros y [Hi Hm]. split.
      - intros p tn src Hy. destruct (Hi p tn src Hy) as [-> ->]. split; reflexivity.
      - intros a Hy. destruct (Hm a Hy). }
    intros _ tr9 _.
    unfold upsert_data_partition.
    repeat emits_step; intros; try (apply Hplain; intros; discriminate);
      (split; intros; simpl in *; [discriminate|]);
      match goal with H : MergeGen _ = MergeGen _ |- _ => injection H as <- end;
      split; reflexivity.
  - intros s1 tr2. apply emits_call; intros; apply Hplain; intros; discriminate.
Qed.

Lemma db_merge_uses_one_staging_table_witness :
  let env := Demo.world "mssql" Demo.no_failure Demo.orders_columns in
  "##_source_orders_abcd"
  = staging_table_name env Demo.loaded "orders" (Some "sales") None 2 [].
Proof.
  intros env.
  refine (proj1 (proj1 (db_merge_uses_one_staging_table env Demo.loaded "orders" (Some "sales")
                          None None None 2 []
                          (snd (db_merge env Demo.loaded "orders" (Some "sales")
                                         None None None 2 []))
                          (Done (InsertGen Demo.second_chunk "##_source_orders_abcd" None))
                          _ _)
                       Demo.second_chunk "##_source_orders_abcd" None eq_refl)).
  - reflexivity.
  - vm_compute. auto 30.
Defined.

(* ================================================================= *)
(** ** The order of the steps *)

Section TwoPhase.

Variables P Q : entry -> Prop.

Lemma two_phase_first {A} (m : M A) tr : emits P m tr -> two_phase P Q m tr.
Proof. intros (t & E & F). exists t, []. rewrite app_nil_r. auto. Qed.

Lemma two_phase_second {A} (m : M A) tr : emits Q m tr -> two_phase P Q m tr.
Proof. intros (t & E & F). exists [], t. auto. Qed.

Lemma two_phase_bind {A B} (m : M A) (k : A -> M B) tr :
  emits P m tr ->
  (forall a tr1, m tr = (Return a, tr1) -> two_phase P Q (k a) tr1) ->
  two_phase P Q (bind m k) tr.
Proof.
  intros (t & E & F) Hk. unfold two_phase, bind.
  destruct (m tr) as [[a|e] tr1] eqn:Em; simpl in E; subst tr1.
  - destruct (Hk a _ eq_refl) as (t1 & t2 & E2 & F1 & F2).
    exists (t ++ t1), t2. rewrite E2, <- !app_assoc. split; [reflexivity|].
    split; [apply Forall_app; auto | exact F2].
  - exists t, []. rewrite app_nil_r. auto.
Qed.

Lemma two_phase_with_cm {A B} (enter : M A) (exit : A -> M unit) (body : A -> M B) tr :
  emits P enter tr ->
  (forall a tr1, enter tr = (Return a, tr1) -> two_phase P Q (body a) tr1) ->
  (forall a tr2, emits Q (exit a) tr2) ->
  two_phase P Q (with_cm enter exit body) tr.
Proof.
  intros (t & E & F) Hb Hx. unfold two_phase, with_cm.
  destruct (enter tr) as [[a|e] tr1] eqn:Een; simpl in E; subst tr1.
  - destruct (Hb a _ eq_refl) as (t1 & t2 & E2 & F1 & F2).
    destruct (body a (tr ++ t)) as [r tr2]. simpl in E2. subst tr2.
    destruct (Hx a ((tr ++ t) ++ t1 ++ t2)) as (t3 & E3 & F3).
    exists (t ++ t1), (t2 ++ t3).
    split; [|split; apply Forall_app; auto].
    destruct (exit a ((tr ++ t) ++ t1 ++ t2)) as [[u|e'] tr3]; simpl in *; subst tr3;
      now rewrite <- !app_assoc.
  - exists t, []. rewrite app_nil_r. auto.
Qed.

End TwoPhase.

(** In a two-phase run, what follows an entry that cannot belong to the
    first phase belongs to the second. *)
Lemma two_phase_after (F : entry -> bool) (Q : entry -> Prop) (t1 t2 pre post : trace)
    (x : entry) :
  Forall (fun y => F y = false) t1 -> Forall Q t2 ->
  t1 ++ t2 = pre ++ x :: post -> F x = true ->
  Forall Q post.
Proof.
  intros F1 F2 E Hx.
  destruct (entry_after_block F t1 t2 pre post x F1 E Hx) as [rest ->].
  rewrite <- app_assoc in E. apply app_inv_head in E. subst t2.
  apply Forall_app in F2 as [_ F2]. now inversion F2.
Qed.

(** X7: once an entry of a partition insert is written, [db_insert]
    executes no statement without bound rows and commits nothing: the
    rows it inserts are never committed by [db_insert] itself. *)
Theorem db_insert_never_commits_inserts env self target_table target_schema sess
    partition_by full_refresh chunk_size tr new pre x post :
  snd (db_insert env self target_table target_schema sess partition_by
                 full_refresh chunk_size tr) = tr ++ new ->
  new = pre ++ x :: post ->
  is_insert_entry x = true ->
  Forall (fun y => is_truncate_entry y = false) post.
Proof.
  intros Hrun Hsplit Hx. subst new.
  assert (T : two_phase (fun y => is_insert_entry y = false) (fun y => is_load_entry y = true)
                (db_insert env self target_table target_schema sess partition_by
                           full_refresh chunk_size) tr).
  { unfold db_insert. destruct (dataframe self); [|apply two_phase_first, emits_raise].
    apply two_phase_bind.
    { destruct partition_by as [[c|[|c l]]|]; first [apply emits_ret | apply emits_raise]. }
    intros column tr1 _. apply two_phase_bind; [apply emits_call; intros; reflexivity|].
    intros parts tr2 _. apply two_phase_bind.
    { destruct (py_eq_str full_refresh "Y"); [|apply emits_ret].
      unfold truncate_table, with_database_engine. repeat emits_step; intros; reflexivity. }
    intros _ tr3 _. apply two_phase_second, executor_map_emits. }
  destruct T as (t1 & t2 & E & F1 & F2).
  rewrite E in Hrun. apply app_inv_head in Hrun.
  eapply Forall_impl; [apply load_entry_not_truncate|].
  exact (two_phase_after is_insert_entry _ t1 t2 pre post x F1 F2 Hrun Hx).
Qed.

Lemma db_insert_never_commits_inserts_witness :
  let run := db_insert (Demo.world "postgresql" Demo.no_failure Demo.orders_columns)
                       Demo.loaded "orders" (Some "sales") None None (VStr "Y") 2 [] in
  Forall (fun y => is_truncate_entry y = false) (skipn 7 (snd run)).
Proof.
  intros run.
  apply (db_insert_never_commits_inserts
           (Demo.world "postgresql" Demo.no_failure Demo.orders_columns)
           Demo.loaded "orders" (Some "sales") None None (VStr "Y") 2 []
           (snd run) (firstn 6 (snd run))
           (Done (InsertGen Demo.second_chunk "sales.orders" None))
           (skipn 7 (snd run)));
    reflexivity.
Defined.

Section UntilMark.

Variable mark : entry -> bool.
Variable P : entry -> Prop.

Lemma until_mark_before {A} (m : M A) tr : emits P m tr -> until_mark mark P m tr.
Proof. intros (t & E & F). exists t. auto. Qed.

Lemma until_mark_bind {A B} (m : M A) (k : A -> M B) tr :
  emits P m tr ->
  (forall a tr1, m tr = (Return a, tr1) -> until_mark mark P (k a) tr1) ->
  until_mark mark P (bind m k) tr.
Proof.
  intros (t & E & F) Hk. unfold until_mark, bind.
  destruct (m tr) as [[a|e] tr1] eqn:Em; simpl in E; subst tr1.
  - destruct (Hk a _ eq_refl) as (t' & E' & [F' | (t1 & y & t2 & -> & My & F1)]).
    + exists (t ++ t'). rewrite E'. split; [now rewrite <- !app_assoc|].
      left. apply Forall_app; auto.
    + exists (t ++ t1 ++ y :: t2). rewrite E'. split; [now rewrite <- !app_assoc|].
      right. exists (t ++ t1), y, t2. rewrite <- app_assoc.
      repeat split; auto. apply Forall_app; auto.
  - exists t. auto.
Qed.

(** The marked call itself: whatever follows it is free. *)
Lemma until_mark_call {A B} env (ev : event) (answer : trace -> A) (k : A -> M B) tr :
  mark (Done ev) = true ->
  (forall e, P (Failed ev e)) ->
  (forall a tr1, emits (fun _ => True) (k a) tr1) ->
  until_mark mark P (bind (call env ev answer) k) tr.
Proof.
  intros Hm Hf Hk. unfold until_mark, bind, call.
  destruct (raises env tr ev) as [e|].
  - exists [Failed ev e]. split; [reflexivity|]. left. auto.
  - destruct (Hk (answer tr) (tr ++ [Done ev])) as (t & E & _).
    exists (Done ev :: t). rewrite E, <- app_assoc. split; [reflexivity|].
    right. exists [], (Done ev), t. auto.
Qed.

Lemma until_mark_with_cm {A B} (enter : M A) (exit : A -> M unit) (body : A -> M B) tr :
  emits P enter tr ->
  (forall a tr1, enter tr = (Return a, tr1) -> until_mark mark P (body a) tr1) ->
  (forall a tr2, emits P (exit a) tr2) ->
  until_mark mark P (with_cm enter exit body) tr.
Proof.
  intros (t & E & F) Hb Hx. unfold until_mark, with_cm.
  destruct (enter tr) as [[a|e] tr1] eqn:Een; simpl in E; subst tr1.
  - destruct (Hb a _ eq_refl) as (t' & E' & H').
    destruct (body a (tr ++ t)) as [r tr2]. simpl in E'. subst tr2.
    destruct (Hx a ((tr ++ t) ++ t')) as (t3 & E3 & F3).
    exists (t ++ t' ++ t3). split.
    + destruct (exit a ((tr ++ t) ++ t')) as [[u|e'] tr3]; simpl in *; subst tr3;
        now rewrite <- !app_assoc.
    + destruct H' as [F' | (t1 & y & t2 & -> & My & F1)].
      * left. repeat (apply Forall_app; split); auto.
      * right. exists (t ++ t1), y, (t2 ++ t3). rewrite <- !app_assoc.
        repeat split; auto. apply Forall_app; auto.
  - exists t. auto.
Qed.

End UntilMark.

(** In such a run, an entry that [P] excludes has a marked entry before it. *)
Lemma until_mark_found (mark F : entry -> bool) (t pre post : trace) (x : entry) :
  (forall y, mark y = true -> F y = false) ->
  (Forall (fun y => F y = false) t
   \/ exists t1 y t2, t = t1 ++ y :: t2 /\ mark y = true
                      /\ Forall (fun y => F y = false) t1) ->
  t = pre ++ x :: post -> F x = true ->
  exists y, In y pre /\ mark y = true.
Proof.
  intros Hmark [Fa | (t1 & y & t2 & -> & My & F1)] E Hx.
  - exfalso. exact (no_such_entry F t pre post x Fa E Hx).
  - destruct (entry_after_block F t1 (y :: t2) pre post x F1 E Hx) as [rest ->].
    rewrite <- app_assoc in E. apply app_inv_head in E.
    destruct rest as [|z rest]; simpl in E.
    + injection E as -> _. rewrite (Hmark _ My) in Hx. discriminate.
    + injection E as <- _. exists y. split; [|exact My].
      apply in_or_app. right. left. reflexivity.
Qed.



(** X5: in a run of [db_merge], no partition insert is attempted once the
    merge statement has been requested: loading the staging table is over
    before the merge begins. *)
Theorem db_merge_merges_after_loading env self target_table target_schema match_condition
    constraint_columns partition_by chunk_size tr new pre x post :
  snd (db_merge env self target_table target_schema match_condition constraint_columns
                partition_by chunk_size tr) = tr ++ new ->
  new = pre ++ x :: post ->
  is_merge_gen x = true ->
  Forall (fun y => is_insert_entry y = false) post.
Proof.
  intros Hrun Hsplit Hx. subst new.
  assert (T : two_phase (fun y => is_merge_gen y = false) (fun y => is_insert_entry y = false)
                (db_merge env self target_table target_schema match_condition
                          constraint_columns partition_by chunk_size) tr).
  { assert (Hno : forall y, (forall a, event_of y = MergeGen a -> False) ->
                            is_merge_gen y = false).
    { intros y H. unfold is_merge_gen. destruct (event_of y); try reflexivity.
      destruct (H _ eq_refl). }
    unfold db_merge, with_database_engine. apply two_phase_with_cm.
    - apply emits_engine_enter; intros; reflexivity.
    - intros s tr1 _.
      apply two_phase_bind; [apply emits_call; intros; reflexivity|].
      intros [auto_columns pk] tr2 _.
      apply two_phase_bind; [apply emits_call; intros; reflexivity|]. intros parts tr3 _.
      apply two_phase_bind; [apply emits_call; intros; reflexivity|]. intros dbms tr4 _.
      apply two_phase_bind.
      { unfold generate_temp_table_name. repeat emits_step; intros; reflexivity. }
      intros name tr5 _.
      apply two_phase_bind.
      { eapply emits_weaken; [exact Hno|].
        apply (create_temp_table_no_merge_gen (fun _ => False)). }
      intros ddl tr6 _.
      apply two_phase_bind; [apply emits_call; intros; reflexivity|]. intros _ tr7 _.
      apply two_phase_bind; [apply emits_print; reflexivity|]. intros _ tr8 _.
      apply two_phase_bind.
      { eapply emits_weaken; [exact Hno|].
        apply (db_insert_no_merge_gen (fun _ => False)). }
      intros _ tr9 _.
      apply two_phase_second. unfold upsert_data_partition.
      repeat emits_step; intros; reflexivity.
    - intros s tr2. apply emits_call; intros; reflexivity. }
  destruct T as (t1 & t2 & E & F1 & F2).
  rewrite E in Hrun. apply app_inv_head in Hrun.
  exact (two_phase_after is_merge_gen _ t1 t2 pre post x F1 F2 Hrun Hx).
Qed.


Lemma db_merge_merges_after_loading_witness :
  let run := db_merge (Demo.world "mssql" Demo.no_failure Demo.orders_columns) Demo.loaded
                      "orders" (Some "sales") None None None 2 [] in
  Forall (fun y => is_insert_entry y = false) (skipn 18 (snd run)).
Proof.
  intros run.
  apply (db_merge_merges_after_loading
           (Demo.world "mssql" Demo.no_failure Demo.orders_columns) Demo.loaded
           "orders" (Some "sales") None None None 2 []
           (snd run) (firstn 17 (snd run))
           (Done (MergeGen {| m_dataframe := Some Demo.orders;
                              m_table_name := "sales.orders";
                              m_match_condition := ["id"];
                              m_dbms := "mssql";
                              m_constraint_columns := ["status"];
                              m_source_table_name := "##_source_orders_abcd" |}))
           (skipn 18 (snd run)));
    reflexivity.
Defined.


Lemma db_insert_default_never_commits env self target_table target_schema sess partition_by
    chunk_size tr :
  emits (fun y => is_commit y = false)
        (db_insert env self target_table target_schema sess partition_by (VStr "N")
                   chunk_size) tr.
Proof.
  unfold db_insert. change (py_eq_str (VStr "N") "Y") with false. cbv iota.
  repeat emits_step; try worker_sees; intros; reflexivity.
Qed.

(** X10: in a run of [db_merge] nothing is committed before the merge
    statement has been generated: the rows loaded into the staging table
    are never committed on their own. *)
Theorem db_merge_commits_after_merge env self target_table target_schema match_condition
    constraint_columns partition_by chunk_size tr new pre x post :
  snd (db_merge env self target_table target_schema match_condition constraint_columns
                partition_by chunk_size tr) = tr ++ new ->
  new = pre ++ x :: post ->
  is_commit x = true ->
  exists y, In y pre /\ is_merge_generated y = true.
Proof.
  intros Hrun Hsplit Hx. subst new.
  assert (T : until_mark is_merge_generated (fun y => is_commit y = false)
                (db_merge env self target_table target_schema match_condition
                          constraint_columns partition_by chunk_size) tr).
  { unfold db_merge, with_database_engine. apply until_mark_with_cm.
    - apply emits_engine_enter; intros; reflexivity.
    - intros s tr1 _.
      apply until_mark_bind; [apply emits_call; intros; reflexivity|].
      intros [auto_columns pk] tr2 _.
      apply until_mark_bind; [apply emits_call; intros; reflexivity|]. intros parts tr3 _.
      apply until_mark_bind; [apply emits_call; intros; reflexivity|]. intros dbms tr4 _.
      apply until_mark_bind.
      { unfold generate_temp_table_name. repeat emits_step; intros; reflexivity. }
      intros name tr5 _.
      apply until_mark_bind.
      { unfold create_temp_table, with_session. repeat emits_step; intros; reflexivity. }
      intros ddl tr6 _.
      apply until_mark_bind; [apply emits_call; intros; reflexivity|]. intros _ tr7 _.
      apply until_mark_bind; [apply emits_print; reflexivity|]. intros _ tr8 _.
      apply until_mark_bind; [apply db_insert_default_never_commits|]. intros _ tr9 _.
      unfold upsert_data_partition. cbv zeta.
      apply until_mark_call; [reflexivity | intros; reflexivity|].
      intros sql tr10. repeat emits_step; intros; exact I.
    - intros s tr2. apply emits_call; intros; reflexivity. }
  destruct T as (t & E & H).
  rewrite E in Hrun. apply app_inv_head in Hrun.
  apply (until_mark_found is_merge_generated is_commit t pre post x); auto.
  intros y My. destruct y as [[]|]; try discriminate. reflexivity.
Qed.

Lemma db_merge_commits_after_merge_witness :
  let run := db_merge (Demo.world "mssql" Demo.no_failure Demo.orders_columns) Demo.loaded
                      "orders" (Some "sales") None None None 2 [] in
  exists y, In y (firstn 19 (snd run)) /\ is_merge_generated y = true.
Proof.
  intros run.
  apply (db_merge_commits_after_merge
           (Demo.world "mssql" Demo.no_failure Demo.orders_columns) Demo.loaded
           "orders" (Some "sales") None None None 2 []
           (snd run) (firstn 19 (snd run)) (Done (Commit 0)) (skipn 20 (snd run)));
    reflexivity.
Defined.

(* ================================================================= *)
(** ** Truncate, once more *)

(** X11: [truncate_table] commits only when its [DELETE FROM] went
    through on the session it was handed: an attempt to commit has
    exactly the session's entry and the executed statement before it.  A
    statement that raises is therefore never followed by a commit. *)
Theorem truncate_table_commits_after_delete env target_table target_schema tr new pre x post :
  snd (truncate_table env target_table target_schema tr) = tr ++ new ->
  new = pre ++ x :: post ->
  is_commit x = true ->
  let s := fresh_session env tr in
  pre = [Done (EngineEnter s); Done (Execute s ("DELETE FROM " +:+ target_table) None)].
Proof.
  intros Hrun Hsplit Hx s. subst new. revert Hrun.
  unfold truncate_table, with_database_engine, with_cm, engine_enter, bind, call. fold s.
  destruct (raises env tr (EngineEnter s));
    [|destruct (raises env _ (Execute s ("DELETE FROM " +:+ target_table) None));
      [|destruct (raises env _ (Commit s))]];
    try destruct (raises env _ (EngineExit s));
    cbn [snd]; rewrite <- ?app_assoc; cbn [app];
    intros H; apply app_inv_head in H;
    destruct pre as [|a1 [|a2 [|a3 [|a4 [|a5 pre]]]]]; cbn [app] in H;
    injection H; intros; subst; cbn in *; try discriminate; reflexivity.
Qed.

Lemma truncate_table_commits_after_delete_witness :
  [Done (EngineEnter 0); Done (Execute 0 "DELETE FROM orders" None)]
  = [Done (EngineEnter (fresh_session
                          (Demo.world "postgresql" Demo.no_failure Demo.orders_columns) []));
     Done (Execute (fresh_session
                      (Demo.world "postgresql" Demo.no_failure Demo.orders_columns) [])
                   ("DELETE FROM " +:+ "orders") None)].
Proof.
  apply (truncate_table_commits_after_delete
           (Demo.world "postgresql" Demo.no_failure Demo.orders_columns) "orders" None []
           [Done (EngineEnter 0); Done (Execute 0 "DELETE FROM orders" None);
            Done (Commit 0); Done (EngineExit 0)]
           [Done (EngineEnter 0); Done (Execute 0 "DELETE FROM orders" None)]
           (Done (Commit 0)) [Done (EngineExit 0)]);
    reflexivity.
Defined.

(* ================================================================= *)
(** ** Source extraction, once more *)

(** X15: with a table name and no query, [copy_source_db] reads the whole
    table: the text sent to the source is [SELECT * FROM] followed by the
    formatted table name; no file is looked at, and the dataframe
    returned is what was read, whatever was loaded before. *)
Theorem copy_source_db_reads_whole_table env self source_db_url table source_schema_name
    chunk_size tr :
  never_raises env ->
  Str.truthy table = true ->
  let tr1 := tr ++ [Done (CreateEngine source_db_url)] in
  let uri := engine_url env tr source_db_url in
  let query := SqlStr ("SELECT * FROM " +:+ table_name_formattter table source_schema_name) in
  copy_source_db env self source_db_url (Some table) None source_schema_name chunk_size tr
  = (Return {| dataframe := Some (database_rows env tr1 query uri chunk_size) |},
     tr1 ++ [Done (ReadDatabaseUri query uri chunk_size)]).
Proof.
  intros Hnr Ht tr1 uri query.
  unfold copy_source_db, bind, call. rewrite Hnr.
  cbn [Str.truthy_opt truthy_sql]. rewrite Ht. cbn [orb negb ret].
  rewrite table_name_formattter_untyped_some. cbn [fstr_opt].
  rewrite Hnr. reflexivity.
Qed.

Lemma copy_source_db_reads_whole_table_witness :
  let env := Demo.world "postgresql" Demo.no_failure Demo.orders_columns in
  snd (copy_source_db env Demo.loaded "sqlite://" (Some "orders") None (Some "sales") None [])
  = [Done (CreateEngine "sqlite://");
     Done (ReadDatabaseUri (SqlStr "SELECT * FROM sales.orders") "sqlite://" None)].
Proof.
  intros env.
  rewrite (copy_source_db_reads_whole_table env Demo.loaded "sqlite://" "orders"
             (Some "sales") None []);
    [reflexivity | intros tr ev; reflexivity | reflexivity].
Defined.

Lemma endswith_truthy (p s : string) :
  Str.truthy p = true -> Str.endswith p s = true -> Str.truthy s = true.
Proof.
  intros Hp H. destruct s as [|c s]; [|reflexivity].
  destruct p as [|a p]; [discriminate|]. discriminate H.
Qed.

(** X16: how [copy_source_db] resolves a query that names an existing
    file.  A [str] path ending in [.sql] is replaced by the contents of
    the file, which are what is sent to the source.  A [bytes] path makes
    the suffix test a [TypeError]: the call raises after the file test
    and nothing is read. *)
Theorem copy_source_db_query_from_file env self source_db_url source_table_name
    source_schema_name chunk_size tr :
  never_raises env ->
  let tr1 := tr ++ [Done (CreateEngine source_db_url)] in
  let uri := engine_url env tr source_db_url in
  (forall path,
      isfile env tr1 (SqlStr path) = true ->
      Str.endswith ".sql" path = true ->
      let tr2 := tr1 ++ [Done (IsFile (SqlStr path))] in
      let query := SqlStr (file_contents env tr2 path) in
      let tr3 := tr2 ++ [Done (ReadFile path)] in
      copy_source_db env self source_db_url source_table_name (Some (SqlStr path))
                     source_schema_name chunk_size tr
      = (Return {| dataframe := Some (database_rows env tr3 query uri chunk_size) |},
         tr3 ++ [Done (ReadDatabaseUri query uri chunk_size)]))
  /\ (forall path,
        isfile env tr1 (SqlBytes path) = true ->
        Str.truthy_opt source_table_name || Str.truthy path = true ->
        copy_source_db env self source_db_url source_table_name (Some (SqlBytes path))
                       source_schema_name chunk_size tr
        = (Raise (TypeError "endswith first arg must be bytes or a tuple of bytes, not str"),
           tr1 ++ [Done (IsFile (SqlBytes path))])).
Proof.
  intros Hnr tr1 uri. split.
  - intros path Hf Hs tr2 query tr3.
    unfold copy_source_db, bind, call. rewrite Hnr.
    cbn [truthy_sql]. rewrite (endswith_truthy ".sql" path eq_refl Hs), orb_true_r.
    cbn [negb]. unfold get_sql_query, bind, call. rewrite Hnr.
    fold tr1. rewrite Hf, Hs, Hnr. cbn [ret]. rewrite Hnr. reflexivity.
  - intros path Hf Ht.
    unfold copy_source_db, bind, call. rewrite Hnr.
    cbn [truthy_sql]. rewrite Ht. cbn [negb].
    unfold get_sql_query, bind, call. rewrite Hnr.
    fold tr1. rewrite Hf. reflexivity.
Qed.

Lemma copy_source_db_query_from_file_witness :
  snd (copy_source_db world_with_query_file Demo.loaded "sqlite://" None
                      (Some (SqlStr "etl/orders.sql")) None None [])
  = [Done (CreateEngine "sqlite://"); Done (IsFile (SqlStr "etl/orders.sql"));
     Done (ReadFile "etl/orders.sql");
     Done (ReadDatabaseUri (SqlStr "SELECT id, status FROM orders WHERE status = 'open'")
                           "sqlite://" None)]
  /\ fst (copy_source_db world_with_query_file Demo.loaded "sqlite://" None
                         (Some (SqlBytes "etl/orders.sql")) None None [])
     = Raise (TypeError "endswith first arg must be bytes or a tuple of bytes, not str").
Proof.
  destruct (copy_source_db_query_from_file world_with_query_file Demo.loaded "sqlite://"
              None None None []) as [A B].
  - intros tr ev. reflexivity.
  - split.
    + rewrite (A "etl/orders.sql"); reflexivity.
    + rewrite (B "etl/orders.sql"); reflexivity.
Defined.

(* ================================================================= *)
(** ** A list of partition columns *)

Lemma db_merge_fails_with_insert env self target_table target_schema match_condition
    constraint_columns partition_by chunk_size tr :
  (forall name s tr1,
      exists e, db_insert env self name None (Some s) partition_by (VStr "N") chunk_size tr1
                = (Raise e, tr1)) ->
  (exists e,
      fst (db_merge env self target_table target_schema match_condition constraint_columns
                    partition_by chunk_size tr) = Raise e)
  /\ emits (fun x => is_merge_gen x = false /\ is_insert_entry x = false)
           (db_merge env self target_table target_schema match_condition constraint_columns
                     partition_by chunk_size) tr.
Proof.
  intros Hins. split.
  - unfold db_merge, with_database_engine. apply with_cm_raises.
    intros s1 tr1 _.
    apply bind_raises_right. intros [auto_columns pk] tr2 _.
    apply bind_raises_right. intros parts tr3 _.
    apply bind_raises_right. intros dbms tr4 _.
    apply bind_raises_right. intros name tr5 _.
    apply bind_raises_right. intros ddl tr6 _.
    apply bind_raises_right. intros _ tr7 _.
    apply bind_raises_right. intros _ tr8 _.
    apply bind_raises_left.
    match goal with
    | |- context [db_insert env self ?n None (Some ?s) partition_by (VStr "N") chunk_size ?t] =>
        destruct (Hins n s t) as [e He]; rewrite He
    end.
    exists e. reflexivity.
  - unfold db_merge, with_database_engine. apply emits_with_cm.
    + apply emits_engine_enter; intros; repeat split.
    + intros s1 tr1 _.
      apply emits_bind; [apply emits_call; intros; repeat split|].
      intros [auto_columns pk] tr2 _.
      apply emits_bind; [apply emits_call; intros; repeat split|]. intros parts tr3 _.
      apply emits_bind; [apply emits_call; intros; repeat split|]. intros dbms tr4 _.
      apply emits_bind.
      { unfold generate_temp_table_name. repeat emits_step; intros; repeat split. }
      intros name tr5 _.
      apply emits_bind.
      { unfold create_temp_table, with_session. repeat emits_step; intros; repeat split. }
      intros ddl tr6 _.
      apply emits_bind; [apply emits_call; intros; repeat split|]. intros _ tr7 _.
      apply emits_bind; [apply emits_print; repeat split|]. intros _ tr8 _.
      match goal with
      | |- context [db_insert env self ?n None (Some ?s) partition_by (VStr "N") chunk_size] =>
          destruct (Hins n s tr8) as [e He]
      end.
      apply emits_bind.
      { exists []. rewrite He, app_nil_r. split; [reflexivity | constructor]. }
      intros u tr9 H. rewrite He in H. discriminate H.
    + intros s1 tr2. apply emits_call; intros; repeat split.
Qed.

(** X17: a list given as [partition_by].  [db_insert] uses its first
    element only, and on the empty list it raises [IndexError] before
    anything was partitioned, truncated or inserted.  [db_merge] with the
    empty list therefore always raises and never requests an INSERT or
    the merge statement. *)
Theorem partition_by_list env self df target_table target_schema sess match_condition
    constraint_columns full_refresh chunk_size tr :
  (forall first others,
      db_insert env self target_table target_schema sess (Some (AList (first :: others)))
                full_refresh chunk_size tr
      = db_insert env self target_table target_schema sess (Some (AStr first))
                  full_refresh chunk_size tr)
  /\ db_insert env {| dataframe := Some df |} target_table target_schema sess
               (Some (AList [])) full_refresh chunk_size tr
     = (Raise (IndexError "list index out of range"), tr)
  /\ (exists e,
         fst (db_merge env self target_table target_schema match_condition constraint_columns
                       (Some (AList [])) chunk_size tr) = Raise e)
  /\ exists new,
       snd (db_merge env self target_table target_schema match_condition constraint_columns
                     (Some (AList [])) chunk_size tr) = tr ++ new
       /\ Forall (fun x => is_merge_gen x = false /\ is_insert_entry x = false) new.
Proof.
  split; [|split].
  - intros first others. unfold db_insert. destruct (dataframe self); reflexivity.
  - reflexivity.
  - apply db_merge_fails_with_insert. intros name s tr1.
    unfold db_insert. destruct (dataframe self); eexists; reflexivity.
Qed.

(* ================================================================= *)
(** ** A merge that goes through *)




(* ================================================================= *)
(** ** Extract, then insert *)

Lemma executor_map_returns_extending env sess target_table target_schema parts tr :
  exists t,
    executor_map env (insert_partition_with_session_steps env sess target_table target_schema)
                 parts tr = (Return tt, tr ++ t).
Proof.
  destruct (executor_map_returns env
              (insert_partition_with_session_steps env sess target_table target_schema)
              parts tr)
    as [t1 E1].
  destruct (executor_map_emits env sess target_table target_schema parts tr) as (t & E & _).
  rewrite E1 in E. simpl in E. subst t1. now exists t.
Qed.

(** X18: the chain [copy_source_db(...).db_insert(...)].  When no
    collaborator raises and a table name is given, the chain returns
    [None]; it reads the whole table, and the dataframe handed to the
    partitioner is the one that was read. *)
Theorem extract_then_insert env self source_db_url table source_schema_name read_chunk
    target_table target_schema sess col full_refresh chunk_size tr :
  never_raises env ->
  Str.truthy table = true ->
  let tr1 := tr ++ [Done (CreateEngine source_db_url)] in
  let uri := engine_url env tr source_db_url in
  let query := SqlStr ("SELECT * FROM " +:+ table_name_formattter table source_schema_name) in
  let rows := database_rows env tr1 query uri read_chunk in
  exists t,
    bind (copy_source_db env self source_db_url (Some table) None source_schema_name read_chunk)
         (fun loaded => db_insert env loaded target_table target_schema sess
                                  (option_map AStr col) full_refresh chunk_size) tr
    = (Return tt,
       tr ++ [Done (CreateEngine source_db_url);
              Done (ReadDatabaseUri query uri read_chunk);
              Done (PartitionDataframe (Some rows) chunk_size (option_map AStr col))] ++ t).
Proof.
  intros Hnr Ht tr1 uri query rows.
  unfold bind at 1, copy_source_db, bind at 1, call at 1. rewrite Hnr.
  cbn [Str.truthy_opt truthy_sql]. rewrite Ht. cbn [orb negb].
  rewrite table_name_formattter_untyped_some. cbn [fstr_opt].
  unfold bind at 1, ret at 1, bind at 1, call at 1. rewrite Hnr. unfold ret at 1.
  fold tr1. fold uri. fold query. fold rows.
  unfold db_insert. cbn [dataframe].
  destruct col as [c|]; cbn [option_map];
    unfold bind at 1, ret at 1; unfold bind at 1, call at 1; rewrite Hnr;
    unfold bind at 1;
    (destruct (py_eq_str full_refresh "Y");
     [rewrite (truncate_table_returns env _ None _ Hnr) | unfold ret at 1];
     match goal with
     | |- context [executor_map env ?task ?parts ?t0] =>
         destruct (executor_map_returns_extending env sess target_table target_schema
                     parts t0) as [t E]; rewrite E
     end;
     eexists; (apply f_equal2; [reflexivity|]);
     unfold tr1; rewrite <- !app_assoc; cbn [app]; reflexivity).
Qed.

Lemma extract_then_insert_witness :
  let env := Demo.world "postgresql" Demo.no_failure Demo.orders_columns in
  fst (bind (copy_source_db env {| dataframe := None |} "sqlite://" (Some "orders") None
                            (Some "sales") None)
            (fun loaded => db_insert env loaded "orders_copy" None None
                                     (option_map AStr None) (VStr "N") 2) [])
  = Return tt.
Proof.
  intros env.
  destruct (extract_then_insert env {| dataframe := None |} "sqlite://" "orders" (Some "sales")
              None "orders_copy" None None None (VStr "N") 2 []) as [t E].
  - intros tr ev. reflexivity.
  - reflexivity.
  - rewrite E. reflexivity.
Defined.

(* ================================================================= *)
(** ** Statements and the rows bound to them *)

Section Sees.

Variable Phi : trace -> entry -> Prop.

Lemma each_at_app h a b :
  each_at Phi h a -> each_at Phi (h ++ a) b -> each_at Phi h (a ++ b).
Proof.
  revert h. induction a as [|x a IH]; intros h Ha Hb; cbn [app each_at] in *.
  - now rewrite app_nil_r in Hb.
  - destruct Ha as [Hx Ha]. split; [exact Hx|].
    apply IH; [exact Ha|]. now rewrite <- app_assoc.
Qed.

Lemma each_at_position h t pre x post :
  each_at Phi h t -> t = pre ++ x :: post -> Phi (h ++ pre) x.
Proof.
  revert h t. induction pre as [|y pre IH]; intros h t Ht ->; cbn [app each_at] in Ht.
  - rewrite app_nil_r. apply Ht.
  - destruct Ht as [_ Ht]. specialize (IH _ _ Ht eq_refl).
    now rewrite <- app_assoc in IH.
Qed.

Lemma sees_ret {A} (a : A) tr : sees Phi (ret a) tr.
Proof. exists []. cbn. now rewrite app_nil_r. Qed.

Lemma sees_raise {A} (e : exn) tr : sees Phi (@raise A e) tr.
Proof. exists []. cbn. now rewrite app_nil_r. Qed.

Lemma sees_call {A} env (ev : event) (answer : trace -> A) tr :
  Phi tr (Done ev) -> (forall e, Phi tr (Failed ev e)) -> sees Phi (call env ev answer) tr.
Proof.
  intros Hd Hf. unfold sees, call.
  destruct (raises env tr ev) as [e|]; eexists [_]; cbn; auto.
Qed.

Lemma sees_bind {A B} (m : M A) (k : A -> M B) tr :
  sees Phi m tr ->
  (forall a t, m tr = (Return a, tr ++ t) -> sees Phi (k a) (tr ++ t)) ->
  sees Phi (bind m k) tr.
Proof.
  intros (t & E & F) Hk. unfold sees, bind.
  destruct (m tr) as [[a|e] tr1] eqn:Em; simpl in E; subst tr1.
  - destruct (Hk a _ eq_refl) as (t2 & E2 & F2).
    exists (t ++ t2). rewrite E2, app_assoc. split; [reflexivity|].
    now apply each_at_app.
  - exists t. auto.
Qed.

Lemma sees_with_cm {A B} (enter : M A) (exit : A -> M unit) (body : A -> M B) tr :
  sees Phi enter tr ->
  (forall a t, enter tr = (Return a, tr ++ t) -> sees Phi (body a) (tr ++ t)) ->
  (forall a tr2, sees Phi (exit a) tr2) ->
  sees Phi (with_cm enter exit body) tr.
Proof.
  intros (t & E & F) Hb Hx. unfold sees, with_cm.
  destruct (enter tr) as [[a|e] tr1] eqn:Een; simpl in E; subst tr1.
  - destruct (Hb a _ eq_refl) as (t2 & E2 & F2).
    destruct (body a (tr ++ t)) as [r tr2]. simpl in E2. subst tr2.
    destruct (Hx a ((tr ++ t) ++ t2)) as (t3 & E3 & F3).
    exists (t ++ t2 ++ t3). split.
    + destruct (exit a ((tr ++ t) ++ t2)) as [[u|e'] tr3]; simpl in *; subst tr3;
        now rewrite !app_assoc.
    + apply each_at_app; [exact F|]. apply each_at_app; assumption.
  - exists t. auto.
Qed.

End Sees.

(** What a worker of [db_insert] executes with bound rows is the
    statement it had generated for its partition, with the rows of that
    partition. *)
Lemma insert_partition_with_session_steps_rows env sess target_table target_schema p tr0 tr :
  task_sees env
    (rows_of_generated_statement env (table_name_formattter target_table target_schema) tr0)
    (insert_partition_with_session_steps env sess target_table target_schema p)
    (tr0 ++ tr).
Proof.
  worker_sees;
    match goal with
    | |- rows_of_generated_statement _ _ _ (_ ++ ?m) _ =>
        intros s0 sql rows Hev; cbn in Hev; try discriminate Hev;
        injection Hev as <- <- <-;
        rewrite <- !app_assoc;
        eexists _, m, p; refine (conj _ (conj eq_refl eq_refl));
        rewrite <- !app_assoc; reflexivity
    end.
Qed.

(** X20: in every run of [db_insert], whatever the order in which the
    workers of the pool make their calls, a statement executed with
    bound rows was generated before for the target table and for one of
    the partitions: it is the statement that request answered, and the
    rows bound are the rows of that partition, each as its name -> value
    mapping. *)
Theorem db_insert_binds_partition_rows env self target_table target_schema sess
    partition_by full_refresh chunk_size tr :
  exists new,
    snd (db_insert env self target_table target_schema sess partition_by
                   full_refresh chunk_size tr) = tr ++ new
    /\ forall pre x post s sql rows,
         new = pre ++ x :: post ->
         event_of x = Execute s sql (Some rows) ->
         exists pre1 pre2 p,
           pre = pre1 ++ Done (InsertGen p (table_name_formattter target_table target_schema)
                                         None) :: pre2
           /\ rows = iter_rows_named p
           /\ sql = insert_statement env (tr ++ pre1) p
                      (table_name_formattter target_table target_schema) None.
Proof.
  set (tn := table_name_formattter target_table target_schema).
  assert (H : sees (rows_of_generated_statement env tn tr)
                   (db_insert env self target_table target_schema sess partition_by
                              full_refresh chunk_size) tr).
  { unfold db_insert, truncate_table, with_database_engine, engine_enter.
    repeat match goal with
           | |- sees _ (ret _) _ => apply sees_ret
           | |- sees _ (raise _) _ => apply sees_raise
           | |- sees _ (call _ _ _) _ =>
               apply sees_call; [intros ? ? ? [=] | intros ? ? ? ? [=]]
           | |- sees _ (fun t => call _ _ _ t) _ =>
               apply sees_call; [intros ? ? ? [=] | intros ? ? ? ? [=]]
           | |- sees _ (bind _ _) _ => apply sees_bind; [|intros ? ? _]
           | |- sees _ (with_cm _ _ _) _ => apply sees_with_cm; [|intros ? ? _|intros ? ?]
           | |- sees _ (match ?x with _ => _ end) _ => destruct x
           end;
      apply executor_map_sees; intros p; rewrite <- ?app_assoc;
      apply insert_partition_with_session_steps_rows. }
  destruct H as (new & E & H). exists new. split; [exact E|].
  intros pre x post s sql rows Enew Hx.
  destruct (each_at_position _ _ _ _ _ _ H Enew s sql rows Hx) as (pre1 & pre2 & p & Eh & Hr & Hs).
  exists pre1, pre2, p. repeat split; [|exact Hr|exact Hs].
  apply app_inv_head in Eh. exact Eh.
Qed.

(* ================================================================= *)
(** ** One statement per partition *)

(** A worker that was given a session requests the INSERT statement of
    its partition once, in each of its runs. *)
Lemma insert_partition_with_session_steps_requests env s target_table target_schema p l :
  task_trace env (insert_partition_with_session_steps env (Some s) target_table
                                                      target_schema p) l ->
  requested_partitions l = [p].
Proof. intros H. task_trace_cases H; reflexivity. Qed.

(** X21: when [db_insert] is given a session and returns, the partitions
    for which it has requested an INSERT statement are, up to the order
    of the requests, the partitions the partitioner returned: each
    partition is requested once, none twice and none is skipped,
    whatever the order in which the workers of the pool make their
    calls. *)
Theorem db_insert_requests_one_statement_per_partition env df target_table target_schema s
    col full_refresh chunk_size tr :
  let column := option_map AStr col in
  let parts := partitions env tr (Some df) chunk_size column in
  let run := db_insert env {| dataframe := Some df |} target_table target_schema (Some s)
                       column full_refresh chunk_size tr in
  fst run = Return tt ->
  exists new, snd run = tr ++ new /\ Permutation (requested_partitions new) parts.
Proof.
  intros column parts run Hret.
  destruct (db_insert_reaches_pool env df target_table target_schema (Some s) col
              full_refresh chunk_size tr)
    as [(e & new & H & F) | (tr2 & H & before & -> & Hb)]; fold column in H; fold run in H.
  - rewrite H in Hret. discriminate.
  - fold parts in H.
    destruct (executor_map_runs_every_worker env (Some s) target_table target_schema parts
                (tr ++ before)) as (load & tts & E & F2 & Hm).
    exists (before ++ load). rewrite H, E, <- app_assoc. split; [reflexivity|].
    unfold requested_partitions at 1. rewrite flat_map_app.
    fold (requested_partitions before). fold (requested_partitions load).
    rewrite Hb. cbn [app].
    etransitivity; [apply merged_requested, Hm|].
    replace (concat (map requested_partitions tts)) with parts; [reflexivity|].
    clear - F2. induction F2 as [|p l parts tts Hl _ IH]; cbn [map concat]; [reflexivity|].
    rewrite (insert_partition_with_session_steps_requests _ _ _ _ _ _ Hl), <- IH.
    reflexivity.
Qed.

Lemma db_insert_requests_one_statement_per_partition_witness :
  let env := Demo.world "postgresql" Demo.rejects_second_chunk Demo.orders_columns in
  exists new,
    snd (db_insert env {| dataframe := Some Demo.orders |} "orders" (Some "sales") (Some 9)
                   (option_map AStr None) (VStr "Y") 2 []) = [] ++ new
    /\ Permutation (requested_partitions new)
                   (partitions env [] (Some Demo.orders) 2 (option_map AStr None)).
Proof.
  intros env.
  apply (db_insert_requests_one_statement_per_partition env Demo.orders "orders"
           (Some "sales") 9 None (VStr "Y") 2 []); reflexivity.
Defined.
